(** * createStore: a namespaced, lazily seeded, optionally encrypted store

    A shallow embedding of [src/storage/createStore.ts].  The TypeScript
    module wraps one area of [chrome.storage]; every method is an [async]
    function that awaits host calls one after the other.  Here a method is
    a computation in a state-and-error monad over a [State].

    What is modelled, and how:
    - a value is [undefined] or JSON-like data; objects used as maps are
      finite maps, objects whose property order matters are association
      lists;
    - each area of [chrome.storage] is a finite map from actual key to
      data: [get] answers with the requested keys it holds, [set] stores
      every property that holds data and drops one that holds [undefined],
      [remove] deletes; every call is recorded in a trace, and the host
      may reject any call;
    - the encryption collaborator is a parameter;
    - functions are values with an identity, which is what the host's
      listener registry compares;
    - change events enter through [dispatch] only: the host raises none
      for its own writes, and [dispatch] runs the listeners one after the
      other, each to completion, so the order in which asynchronous
      listeners call back is not modelled and nothing here relies on it;
    - the state carries the [hasInitialized] variable of one store, so
      one state stands for one store.

    The React hook [use] is not modelled. *)

From stdpp Require Import gmap strings list fin_maps.
From Stdlib Require Import ZArith Lia Ascii.

Open Scope string_scope.
Open Scope list_scope.

(* ===================================================================== *)
(** * Values *)
(* ===================================================================== *)

(** What the host can persist: JSON-like data.  The store never looks
    inside a value, so numbers are kept as integers. *)
#[warnings="-register-all"]
Inductive json : Type :=
| JNull
| JBool (b : bool)
| JNum (n : Z)
| JStr (s : string)
| JArr (items : list json)
| JObj (fields : list (string * json)).

(** A JavaScript value as the store sees it: [undefined], or data. *)
Inductive value : Type :=
| undefined
| defined (j : json).

Coercion defined : json >-> value.

(** [v === undefined] *)
Definition is_undefined (v : value) : bool :=
  match v with undefined => true | defined _ => false end.

(** [o[k]] on a plain object held as a finite map: a missing property
    reads as [undefined].  Every key looked up by the store contains a
    colon, so inherited properties never interfere. *)
Definition prop (o : gmap string value) (k : string) : value :=
  match o !! k with Some v => v | None => undefined end.

(** [o[k]] on an object whose property order matters (the [defaults]
    declaration, the argument of the bulk [set]): an association list in
    property order. *)
Fixpoint entry (o : list (string * value)) (k : string) : value :=
  match o with
  | [] => undefined
  | (k', v) :: rest => if String.eqb k' k then v else entry rest k
  end.

(* ===================================================================== *)
(** * Errors *)
(* ===================================================================== *)

Inductive error : Type :=
| MISSING_PASSWORD_ERROR   (* new Error(Security.MISSING_PASSWORD_ERROR_MESSAGE) *)
| HostError                (* a rejected chrome.storage call *)
| SecurityError.           (* a rejected encrypt or decrypt *)

Inductive result (A : Type) : Type :=
| Ok (a : A)
| Err (e : error).

Arguments Ok {A} a.
Arguments Err {A} e.

Definition is_ok {A} (r : result A) : bool :=
  match r with Ok _ => true | Err _ => false end.

(* ===================================================================== *)
(** * The encryption collaborator *)
(* ===================================================================== *)

(** Modelled from the spec: the class [Security] of [src/storage/Security]
    is not among the sources.  The spec gives its interface:
    [encrypt(plainValue) -> Promise<ciphertext>] and
    [decrypt(ciphertext) -> Promise<plainValue>], both of which may reject.
    A ciphertext is a string the host can persist; [decrypt] receives
    whatever the host returned, which may be [undefined]. *)
Class Security : Type := {
  encrypt : value → result string;
  decrypt : value → result value;
}.

(* ===================================================================== *)
(** * The host: chrome.storage *)
(* ===================================================================== *)

(** ['sync' | 'local' | 'session' | 'managed'] *)
Inductive StorageArea : Type := sync | local | session | managed.

#[global] Instance StorageArea_eq_dec : EqDecision StorageArea.
Proof. solve_decision. Defined.

Definition area_name (a : StorageArea) : string :=
  match a with
  | sync => "sync" | local => "local"
  | session => "session" | managed => "managed"
  end.

(** The four areas of [chrome.storage], each a finite map from actual key
    to persisted data. *)
Record ChromeStorage : Type := {
  cs_sync : gmap string json;
  cs_local : gmap string json;
  cs_session : gmap string json;
  cs_managed : gmap string json;
}.

(** [chrome.storage[area]] *)
Definition area_of (a : StorageArea) (cs : ChromeStorage) : gmap string json :=
  match a with
  | sync => cs_sync cs | local => cs_local cs
  | session => cs_session cs | managed => cs_managed cs
  end.

Definition with_area (a : StorageArea) (m : gmap string json)
    (cs : ChromeStorage) : ChromeStorage :=
  match a with
  | sync => {| cs_sync := m; cs_local := cs_local cs;
               cs_session := cs_session cs; cs_managed := cs_managed cs |}
  | local => {| cs_sync := cs_sync cs; cs_local := m;
                cs_session := cs_session cs; cs_managed := cs_managed cs |}
  | session => {| cs_sync := cs_sync cs; cs_local := cs_local cs;
                  cs_session := m; cs_managed := cs_managed cs |}
  | managed => {| cs_sync := cs_sync cs; cs_local := cs_local cs;
                  cs_session := cs_session cs; cs_managed := m |}
  end.

(** A call on a storage area.  [get] and [remove] take one key or a list
    of keys; a single key is the one-element list. *)
Inductive HostCall : Type :=
| HGet (a : StorageArea) (ks : list string)
| HSet (a : StorageArea) (items : gmap string value)
| HRemove (a : StorageArea) (ks : list string).

(** [get(keys)] answers with an object that has one property per
    requested key the area holds. *)
Fixpoint area_read (ks : list string) (m : gmap string json) : gmap string value :=
  match ks with
  | [] => ∅
  | k :: rest =>
      match m !! k with
      | Some j => <[k := defined j]> (area_read rest m)
      | None => area_read rest m
      end
  end.

(** What of a value reaches the area: [undefined] is not data, so a
    property holding it is dropped when the items are serialised. *)
Definition storable (v : value) : option json :=
  match v with undefined => None | defined j => Some j end.

(** [set(items)] *)
Definition area_write (items : gmap string value) (m : gmap string json)
    : gmap string json :=
  omap storable items ∪ m.

(** [remove(keys)] *)
Definition area_remove (ks : list string) (m : gmap string json) : gmap string json :=
  foldr delete m ks.

Definition host_reply (c : HostCall) (cs : ChromeStorage) : gmap string value :=
  match c with
  | HGet a ks => area_read ks (area_of a cs)
  | HSet _ _ | HRemove _ _ => ∅
  end.

Definition host_effect (c : HostCall) (cs : ChromeStorage) : ChromeStorage :=
  match c with
  | HGet _ _ => cs
  | HSet a items => with_area a (area_write items (area_of a cs)) cs
  | HRemove a ks => with_area a (area_remove ks (area_of a cs)) cs
  end.

(* ===================================================================== *)
(** * Stores, function values and the state *)
(* ===================================================================== *)

Module StoreOptions.
(** [type StoreOptions = { isEncrypted?: boolean }] *)
Record t : Type := { isEncrypted : option bool }.
End StoreOptions.

(** The object [createStore] returns: its two data properties, and the
    variables its methods close over. *)
Record Store : Type := {
  storeId : string;
  options : option StoreOptions.t;
  defaults : list (string * value);
  area : StorageArea;
  keys : list string;
  actualKeys : list string;
  isEncrypted : bool;
}.

(** [{oldValue?, newValue}] as the host reports it and as the callback
    receives it. *)
Record DataChange : Type := {
  oldValue : value;
  newValue : value;
}.

(** Function values are compared by identity.  A function is either one
    the caller wrote, or the closure [sub] that [subscribe] builds over
    the store, the key and the caller's callback. *)
Inductive jsfun : Type :=
| UserFn (id : nat)
| SubFn (id : nat) (st : Store) (key : string) (callback : nat).

(** [f === g] *)
Definition same_fn (f g : jsfun) : bool :=
  match f, g with
  | UserFn i, UserFn j => Nat.eqb i j
  | SubFn i _ _ _, SubFn j _ _ _ => Nat.eqb i j
  | _, _ => false
  end.

Record State : Type := {
  (** [let hasInitialized] of the store at hand *)
  hasInitialized : bool;
  (** [process.env.EXTENSION_STORAGE_PASSWORD] *)
  EXTENSION_STORAGE_PASSWORD : option string;
  (** the contents of [chrome.storage] *)
  storage : ChromeStorage;
  (** every call made on a storage area so far, oldest first *)
  trace : list HostCall;
  (** [faults n] tells whether the call number [n] is rejected *)
  faults : nat → bool;
  (** the listeners of [chrome.storage.onChanged], in order of registration *)
  listeners : list jsfun;
  (** every invocation of a caller's callback so far, oldest first *)
  delivered : list (nat * DataChange);
  (** the identity the next closure gets *)
  next_fn : nat;
}.

Definition with_hasInitialized (b : bool) (s : State) : State :=
  {| hasInitialized := b;
     EXTENSION_STORAGE_PASSWORD := EXTENSION_STORAGE_PASSWORD s;
     storage := storage s; trace := trace s; faults := faults s;
     listeners := listeners s; delivered := delivered s; next_fn := next_fn s |}.

Definition with_host (cs : ChromeStorage) (t : list HostCall) (s : State) : State :=
  {| hasInitialized := hasInitialized s;
     EXTENSION_STORAGE_PASSWORD := EXTENSION_STORAGE_PASSWORD s;
     storage := cs; trace := t; faults := faults s;
     listeners := listeners s; delivered := delivered s; next_fn := next_fn s |}.

Definition with_listeners (l : list jsfun) (n : nat) (s : State) : State :=
  {| hasInitialized := hasInitialized s;
     EXTENSION_STORAGE_PASSWORD := EXTENSION_STORAGE_PASSWORD s;
     storage := storage s; trace := trace s; faults := faults s;
     listeners := l; delivered := delivered s; next_fn := n |}.

Definition with_delivered (d : list (nat * DataChange)) (s : State) : State :=
  {| hasInitialized := hasInitialized s;
     EXTENSION_STORAGE_PASSWORD := EXTENSION_STORAGE_PASSWORD s;
     storage := storage s; trace := trace s; faults := faults s;
     listeners := listeners s; delivered := d; next_fn := next_fn s |}.

(* ===================================================================== *)
(** * The monad of async methods *)
(* ===================================================================== *)

(** An [async] function: it runs from a state to a state and either
    resolves with a value or rejects with an error.  A rejected [await]
    ends the function at once. *)
Definition M (A : Type) : Type := State → result A * State.

Definition ret {A} (a : A) : M A := λ s, (Ok a, s).

Definition throw {A} (e : error) : M A := λ s, (Err e, s).

Definition bind {A B} (m : M A) (k : A → M B) : M B := λ s,
  match m s with
  | (Ok a, s') => k a s'
  | (Err e, s') => (Err e, s')
  end.

Notation "'let*' x ':=' m 'in' k" := (bind m (λ x, k))
  (at level 10, x pattern, m at level 100, k at level 200,
   format "'[v' 'let*'  x  ':='  m  'in' '/' k ']'").

(** Awaiting a collaborator that does not touch the state. *)
Definition lift {A} (r : result A) : M A := λ s, (r, s).

(** One call on the host: it is recorded, and unless the host rejects it
    its effect takes place and its answer comes back. *)
Definition host (c : HostCall) : M (gmap string value) := λ s,
  let t := trace s ++ [c] in
  if faults s (length (trace s))
  then (Err HostError, with_host (storage s) t s)
  else (Ok (host_reply c (storage s)), with_host (host_effect c (storage s)) t s).

(** [callback(change)] *)
Definition invoke (callback : nat) (change : DataChange) : M unit := λ s,
  (Ok tt, with_delivered (delivered s ++ [(callback, change)]) s).

(* ===================================================================== *)
(** * createStore *)
(* ===================================================================== *)

(** [`${storeId}:${key}`] *)
Definition actualKey (storeId key : string) : string := storeId +:+ ":" +:+ key.

(** [options?.isEncrypted || false] *)
Definition requested (options : option StoreOptions.t) : bool :=
  match options with
  | Some o =>
      match StoreOptions.isEncrypted o with Some b => b | None => false end
  | None => false
  end.

(** [!x] for an environment variable: unset and empty are falsy. *)
Definition not_set (x : option string) : bool :=
  match x with
  | None => true
  | Some "" => true
  | Some _ => false
  end.

(** The first argument of [set]: a key, or an object of entries in
    property order. *)
Inductive SetKey : Type :=
| AKey (key : string)
| AObject (entries : list (string * value)).

(** [`${key}`] *)
Definition key_text (key : SetKey) : string :=
  match key with
  | AKey k => k
  | AObject _ => "[object Object]"
  end.

Section Methods.
Context `{Security}.

(** [isEncrypted ? await security.encrypt(v) : v] *)
Definition encode (isEncrypted : bool) (v : value) : result value :=
  if isEncrypted
  then match encrypt v with
       | Ok c => Ok (defined (JStr c))
       | Err e => Err e
       end
  else Ok v.

(** [isEncrypted ? await security.decrypt(value) : value] *)
Definition decode (isEncrypted : bool) (v : value) : result value :=
  if isEncrypted then decrypt v else Ok v.

(** The loop of [initialize] over [missingKeys].  [defaults] is indexed
    with the loop variable, which is an actual key. *)
Fixpoint seed (st : Store) (missingKeys : list string)
    (defaultsToSet : gmap string value) : result (gmap string value) :=
  match missingKeys with
  | [] => Ok defaultsToSet
  | key :: rest =>
      match encode (isEncrypted st) (entry (defaults st) key) with
      | Ok v => seed st rest (<[key := v]> defaultsToSet)
      | Err e => Err e
      end
  end.

Definition initialize (st : Store) : M unit :=
  let* data := host (HGet (area st) (actualKeys st)) in
  let missingKeys :=
    List.filter (λ key, is_undefined (prop data key)) (actualKeys st) in
  let* _ :=
    match missingKeys with
    | [] => ret tt
    | _ :: _ =>
        let* defaultsToSet := lift (seed st missingKeys ∅) in
        let* _ := host (HSet (area st) defaultsToSet) in
        ret tt
    end in
  λ s, (Ok tt, with_hasInitialized true s).

(** [if (!hasInitialized) { await store.initialize(); }] *)
Definition ensureInitialized (st : Store) : M unit := λ s,
  if hasInitialized s then (Ok tt, s) else initialize st s.

Definition get (st : Store) (key : string) : M value :=
  let* _ := ensureInitialized st in
  let actualKey := actualKey (storeId st) key in
  let* items := host (HGet (area st) [actualKey]) in
  let value := prop items actualKey in
  lift (decode (isEncrypted st) value).

(** The loop of the bulk [set] over [Object.entries(key)]. *)
Fixpoint split_entries (st : Store) (entries : list (string * value))
    (entriesToRemove : list string) (entriesToSet : gmap string value)
    : result (list string * gmap string value) :=
  match entries with
  | [] => Ok (entriesToRemove, entriesToSet)
  | (k, v) :: rest =>
      let actualKey := actualKey (storeId st) k in
      if is_undefined v
      then split_entries st rest (entriesToRemove ++ [actualKey]) entriesToSet
      else match encode (isEncrypted st) v with
           | Ok c => split_entries st rest entriesToRemove (<[actualKey := c]> entriesToSet)
           | Err e => Err e
           end
  end.

Definition set (st : Store) (key : SetKey) (value : value) : M unit :=
  let* _ := ensureInitialized st in
  match key, is_undefined value with
  | AObject entries, true =>
      (* typeof key === 'object' && value === undefined *)
      let* parts := lift (split_entries st entries [] ∅) in
      let entriesToRemove := parts.1 in
      let entriesToSet := parts.2 in
      let* _ :=
        match entriesToRemove with
        | [] => ret tt
        | _ :: _ => let* _ := host (HRemove (area st) entriesToRemove) in ret tt
        end in
      if bool_decide (entriesToSet = ∅)
      then ret tt
      else let* _ := host (HSet (area st) entriesToSet) in ret tt
  | _, _ =>
      let actualKey := actualKey (storeId st) (key_text key) in
      if is_undefined value
      then let* _ := host (HRemove (area st) [actualKey]) in ret tt
      else
        let* c := lift (encode (isEncrypted st) value) in
        let* _ := host (HSet (area st) {[ actualKey := c ]}) in
        ret tt
  end.

(** [Promise.all(keys.map(async key => ...))]: every closure reads
    [fullStore[actualKey]] and calls [decrypt] before the first
    assignment runs, so every ciphertext comes from the object the host
    returned; the assignments then land on it one key at a time. *)
Fixpoint decrypt_all (st : Store) (fullStore : gmap string value)
    (ks : list string) : result (list (string * value)) :=
  match ks with
  | [] => Ok []
  | key :: rest =>
      let actualKey := actualKey (storeId st) key in
      match decrypt (prop fullStore actualKey) with
      | Ok v =>
          match decrypt_all st fullStore rest with
          | Ok vs => Ok ((key, v) :: vs)
          | Err e => Err e
          end
      | Err e => Err e
      end
  end.

Definition assign_all (fullStore : gmap string value)
    (vs : list (string * value)) : gmap string value :=
  foldl (λ o kv, <[kv.1 := kv.2]> o) fullStore vs.

Definition all (st : Store) : M (gmap string value) :=
  let* _ := ensureInitialized st in
  let* fullStore := host (HGet (area st) (actualKeys st)) in
  if isEncrypted st
  then
    let* vs := lift (decrypt_all st fullStore (keys st)) in
    ret (assign_all fullStore vs)
  else ret fullStore.

(** The listener [sub] that [subscribe] builds. *)
Definition sub (st : Store) (key : string) (callback : nat)
    (changes : gmap string DataChange) (areaName : string) : M unit :=
  let actualKey := actualKey (storeId st) key in
  if negb (String.eqb areaName (area_name (area st))) then ret tt
  else
    match changes !! actualKey with
    | None => ret tt
    | Some change =>
        if negb (isEncrypted st)
        then invoke callback
               {| oldValue := oldValue change; newValue := newValue change |}
        else
          let* old := lift (decrypt (oldValue change)) in
          let* new := lift (decrypt (newValue change)) in
          invoke callback {| oldValue := old; newValue := new |}
    end.

Definition subscribe (st : Store) (key : string) (callback : nat) : M jsfun := λ s,
  let sub := SubFn (next_fn s) st key callback in
  (* chrome.storage.onChanged.addListener(sub) *)
  (Ok sub, with_listeners (listeners s ++ [sub]) (S (next_fn s)) s).

(** [chrome.storage.onChanged.removeListener(sub)]: the host drops the
    listener if it has it, and does nothing otherwise. *)
Definition unsubscribe (sub : jsfun) : M unit := λ s,
  (Ok tt, with_listeners (List.filter (λ f, negb (same_fn f sub)) (listeners s))
            (next_fn s) s).

(** Calling a function value the way the host calls a listener. *)
Definition call_listener (f : jsfun) (changes : gmap string DataChange)
    (areaName : string) : M unit :=
  match f with
  | SubFn _ st key callback => sub st key callback changes areaName
  | UserFn _ => ret tt
  end.

(** The host fires an event: each registered listener runs in turn; a
    listener that rejects does not keep the others from running. *)
Fixpoint fire (fs : list jsfun) (changes : gmap string DataChange)
    (areaName : string) (s : State) : State :=
  match fs with
  | [] => s
  | f :: rest => fire rest changes areaName (call_listener f changes areaName s).2
  end.

Definition dispatch (changes : gmap string DataChange) (areaName : string)
    (s : State) : State :=
  fire (listeners s) changes areaName s.

Definition createStore (storeId : string) (defaults : list (string * value))
    (area : StorageArea) (options : option StoreOptions.t) : M Store := λ s,
  let keys := map fst defaults in
  let actualKeys := map (actualKey storeId) keys in
  let isEncrypted := requested options in
  if isEncrypted && not_set (EXTENSION_STORAGE_PASSWORD s)
  then throw MISSING_PASSWORD_ERROR s
  else
    (Ok {| storeId := storeId; options := options; defaults := defaults;
           area := area; keys := keys; actualKeys := actualKeys;
           isEncrypted := isEncrypted |},
     with_hasInitialized false s).

Definition createLocalStore storeId defaults options : M Store :=
  createStore storeId defaults local options.
Definition createSyncStore storeId defaults options : M Store :=
  createStore storeId defaults sync options.
Definition createManagedStore storeId defaults options : M Store :=
  createStore storeId defaults managed options.
Definition createSessionStore storeId defaults options : M Store :=
  createStore storeId defaults session options.

End Methods.

(* ===================================================================== *)
(** * Vocabulary of the properties *)
(* ===================================================================== *)

(** The host rejects no call. *)
Definition reliable (s : State) : Prop := ∀ n, faults s n = false.

(** The area a call addresses, and the actual keys it names. *)
Definition call_area (c : HostCall) : StorageArea :=
  match c with HGet a _ | HSet a _ | HRemove a _ => a end.

Definition touches (c : HostCall) (k : string) : Prop :=
  match c with
  | HGet _ ks | HRemove _ ks => k ∈ ks
  | HSet _ items => is_Some (items !! k)
  end.

(** The actual keys are the declared keys behind the store's prefix, as
    [createStore] computes them. *)
Definition well_keyed (st : Store) : Prop :=
  actualKeys st = map (actualKey (storeId st)) (keys st).

(** A call stays inside the store: it addresses the store's area, and
    every key it names is [storeId:logicalKey] for a declared key. *)
Definition within (st : Store) (c : HostCall) : Prop :=
  call_area c = area st ∧
  ∀ k, touches c k →
    ∃ logicalKey, logicalKey ∈ keys st ∧ k = storeId st +:+ ":" +:+ logicalKey.

(** An action only appends to the trace, and every call it appends
    satisfies [P]. *)
Definition emits {A} (P : HostCall → Prop) (m : M A) : Prop :=
  ∀ s, ∃ new, trace (m s).2 = trace s ++ new ∧ Forall P new.

(** Every call an action makes stays inside the store. *)
Definition confined {A} (st : Store) (m : M A) : Prop := emits (within st) m.

(** The actual keys of the store that an area does not hold: what
    [initialize] computes as [missingKeys] from the batched read. *)
Definition absent_keys (st : Store) (cs : ChromeStorage) : list string :=
  List.filter
    (λ key, is_undefined (prop (area_read (actualKeys st) (area_of (area st) cs)) key))
    (actualKeys st).


(** The actual keys of the entries of a bulk [set] that hold [undefined],
    in property order. *)
Definition sentinel_keys (st : Store) (entries : list (string * value)) : list string :=
  map (λ kv, actualKey (storeId st) kv.1)
      (List.filter (λ kv, is_undefined kv.2) entries).


(* ===================================================================== *)
(** * Concrete inputs *)
(* ===================================================================== *)

(** A toy collaborator: it tags strings and maps everything else to one
    ciphertext, which it decrypts to [undefined]; it hands [undefined]
    back on decryption and rejects what it did not produce. *)
Definition toy_encrypt (v : value) : result string :=
  match v with
  | defined (JStr s) => Ok ("s:" +:+ s)
  | _ => Ok "?"
  end.

Definition toy_decrypt (v : value) : result value :=
  match v with
  | undefined => Ok undefined
  | defined (JStr (String "s"%char (String ":"%char s))) => Ok (defined (JStr s))
  | defined (JStr "?") => Ok undefined
  | _ => Err SecurityError
  end.

Definition toy_security : Security :=
  {| encrypt := toy_encrypt; decrypt := toy_decrypt |}.

Definition empty_storage : ChromeStorage :=
  {| cs_sync := ∅; cs_local := ∅; cs_session := ∅; cs_managed := ∅ |}.

(** A fresh page: nothing stored, nothing registered, a host that never
    rejects; the secret is configured or not. *)
Definition fresh_page (password : option string) : State :=
  {| hasInitialized := false;
     EXTENSION_STORAGE_PASSWORD := password;
     storage := empty_storage;
     trace := [];
     faults := λ _, false;
     listeners := [];
     delivered := [];
     next_fn := 0 |}.


(** The store of the spec's scenario:
    [createLocalStore("prefs", {theme: "light", volume: 50})]. *)
Definition prefs_defaults : list (string * value) :=
  [("theme", defined (JStr "light")); ("volume", defined (JNum 50))].

Definition prefs : Store :=
  {| storeId := "prefs"; options := None; defaults := prefs_defaults;
     area := local; keys := ["theme"; "volume"];
     actualKeys := ["prefs:theme"; "prefs:volume"]; isEncrypted := false |}.

(** The same declaration with [{isEncrypted: true}]. *)
Definition encrypted_options : option StoreOptions.t :=
  Some {| StoreOptions.isEncrypted := Some true |}.

Definition vault : Store :=
  {| storeId := "prefs"; options := encrypted_options; defaults := prefs_defaults;
     area := local; keys := ["theme"; "volume"];
     actualKeys := ["prefs:theme"; "prefs:volume"]; isEncrypted := true |}.

(** The scenario of the spec: construct, [get("theme")],
    [set("theme", "dark")], [all()]. *)
Definition scenario `{Security} : M (gmap string value) :=
  let* st := createLocalStore "prefs" prefs_defaults None in
  let* _ := get st "theme" in
  let* _ := set st (AKey "theme") (JStr "dark") in
  all st.

(* ===================================================================== *)
(** * The hook *)
(* ===================================================================== *)

Section Hook.
Context `{Security}.

(** [store.keys()] *)
Definition store_keys (st : Store) : list string := keys st.

(** The function [use] hands to [useEffect].  [onChanged] is the closure
    the effect builds around React's [setValue]; a call of it is recorded
    like that of any callback.  [store.get(key).then(setValue)] is not
    awaited and a rejection of it is not handled: its outcome, which is
    what [setValue] would receive, is handed back beside the state.  The
    read and the subscription touch different parts of the state, so the
    order in which they complete does not matter. *)
Definition use_effect (st : Store) (key : string) (onChanged : nat)
    : State → result value * State := λ s,
  let fetched := get st key s in
  (fetched.1, (subscribe st key onChanged fetched.2).2).

(** The cleanup the effect returns: [() => store.unsubscribe(onChanged)]. *)
Definition use_cleanup (onChanged : nat) : M unit :=
  unsubscribe (UserFn onChanged).

End Hook.

(* ===================================================================== *)
(** * Further vocabulary *)
(* ===================================================================== *)

(** Every run of an action relates the state before to the state after. *)
Definition steps {A} (R : State → State → Prop) (m : M A) : Prop :=
  ∀ s, R s (m s).2.

(** The areas other than [a] hold what they held. *)
Definition other_areas_kept (a : StorageArea) (s s' : State) : Prop :=
  ∀ b, b ≠ a → area_of b (storage s') = area_of b (storage s).

(** A raised flag is still raised. *)
Definition flag_kept (s s' : State) : Prop :=
  hasInitialized s = true → hasInitialized s' = true.

(** Whatever an area held under a key, it still holds. *)
Definition held_kept (s s' : State) : Prop :=
  ∀ a k j, area_of a (storage s) !! k = Some j → area_of a (storage s') !! k = Some j.

(** The listeners, the record of callback invocations and the allocator
    are what they were. *)
Definition subscriptions_kept (s s' : State) : Prop :=
  listeners s' = listeners s ∧ delivered s' = delivered s ∧ next_fn s' = next_fn s.

(** The string contains a colon. *)
Fixpoint has_colon (s : string) : bool :=
  match s with
  | EmptyString => false
  | String c rest => Ascii.eqb c ":" || has_colon rest
  end.

(** What the host holds under an actual key, as a value. *)
Definition held (a : StorageArea) (k : string) (s : State) : value :=
  match area_of a (storage s) !! k with
  | Some j => defined j
  | None => undefined
  end.

(* ===================================================================== *)
(** * The host model *)
(* ===================================================================== *)

Section HostFacts.

Lemma area_of_with_area (a : StorageArea) m cs : area_of a (with_area a m cs) = m.
Proof. by destruct a. Qed.

Lemma area_of_with_area_ne (a b : StorageArea) m cs :
  a ≠ b → area_of b (with_area a m cs) = area_of b cs.
Proof. by destruct a, b. Qed.

Lemma with_area_same (a : StorageArea) cs : with_area a (area_of a cs) cs = cs.
Proof. by destruct a, cs. Qed.

Lemma lookup_area_read (ks : list string) (m : gmap string json) (k : string) :
  area_read ks m !! k = if decide (k ∈ ks) then defined <$> m !! k else None.
Proof.
  induction ks as [|k' ks IH]; cbn [area_read].
  - rewrite lookup_empty. by rewrite decide_False by set_solver.
  - destruct (decide (k' = k)) as [->|Hne].
    + rewrite decide_True by set_solver.
      destruct (m !! k) as [j|] eqn:Hk.
      * by rewrite lookup_insert_eq.
      * rewrite IH. by case_decide.
    + assert (area_read ks m !! k =
              if decide (k ∈ k' :: ks) then defined <$> m !! k else None) as IH'.
      { rewrite IH. destruct (decide (k ∈ ks)) as [Hin|Hnin].
        - by rewrite decide_True by (apply elem_of_cons; by right).
        - rewrite decide_False; [done|].
          intros [?|?]%elem_of_cons; congruence. }
      destruct (m !! k') as [j|]; [by rewrite lookup_insert_ne|done].
Qed.

Lemma prop_area_read (ks : list string) (m : gmap string json) (k : string) :
  k ∈ ks →
  prop (area_read ks m) k = match m !! k with Some j => defined j | None => undefined end.
Proof.
  intros Hin. unfold prop. rewrite lookup_area_read, decide_True by done.
  by destruct (m !! k).
Qed.

Lemma lookup_area_write (items : gmap string value) (m : gmap string json) (k : string) :
  area_write items m !! k =
    match items !! k with
    | Some (defined j) => Some j
    | _ => m !! k
    end.
Proof.
  unfold area_write. rewrite lookup_union, lookup_omap.
  destruct (items !! k) as [[|j]|]; simpl.
  - by rewrite (left_id_L None _).
  - by destruct (m !! k).
  - by rewrite (left_id_L None _).
Qed.

Lemma lookup_area_remove (ks : list string) (m : gmap string json) (k : string) :
  area_remove ks m !! k = if decide (k ∈ ks) then None else m !! k.
Proof.
  unfold area_remove.
  induction ks as [|k' ks IH]; cbn [foldr].
  - by rewrite decide_False by set_solver.
  - destruct (decide (k' = k)) as [->|Hne].
    + rewrite lookup_delete_eq. by rewrite decide_True by set_solver.
    + rewrite lookup_delete_ne by done. rewrite IH.
      destruct (decide (k ∈ ks)) as [Hin|Hnin].
      * by rewrite decide_True by (apply elem_of_cons; by right).
      * rewrite decide_False; [done|].
        intros [?|?]%elem_of_cons; congruence.
Qed.

End HostFacts.

(* ===================================================================== *)
(** * The monad *)
(* ===================================================================== *)

Section MonadFacts.
Context {A B : Type}.

Lemma bind_ok (m : M A) (k : A → M B) s a s' :
  m s = (Ok a, s') → bind m k s = k a s'.
Proof. unfold bind. by intros ->. Qed.

Lemma bind_err (m : M A) (k : A → M B) s e s' :
  m s = (Err e, s') → bind m k s = (Err e, s').
Proof. unfold bind. by intros ->. Qed.



End MonadFacts.

Lemma host_accepted c s :
  faults s (length (trace s)) = false →
  host c s =
    (Ok (host_reply c (storage s)),
     with_host (host_effect c (storage s)) (trace s ++ [c]) s).
Proof. unfold host. by intros ->. Qed.

Lemma host_rejected c s :
  faults s (length (trace s)) = true →
  host c s = (Err HostError, with_host (storage s) (trace s ++ [c]) s).
Proof. unfold host. by intros ->. Qed.


(** ** Rules for [emits] *)

Section Emits.
Context {A B : Type} (P : HostCall → Prop).

Lemma emits_ret (a : A) : emits P (ret a).
Proof. intros s. exists []. by rewrite app_nil_r. Qed.


Lemma emits_lift (r : result A) : emits P (lift r).
Proof. intros s. exists []. by rewrite app_nil_r. Qed.

Lemma emits_host c : P c → emits P (host c).
Proof.
  intros Hc s. exists [c]. split; [|by constructor].
  unfold host. by destruct (faults s (length (trace s))).
Qed.

Lemma emits_bind (m : M A) (k : A → M B) :
  emits P m → (∀ a, emits P (k a)) → emits P (bind m k).
Proof.
  intros Hm Hk s. unfold bind.
  destruct (Hm s) as (new1 & Ht1 & HP1).
  destruct (m s) as [[a|e] s1]; simpl in *.
  - destruct (Hk a s1) as (new2 & Ht2 & HP2).
    exists (new1 ++ new2). split.
    + by rewrite Ht2, Ht1, (assoc_L (++)).
    + by apply Forall_app.
  - by exists new1.
Qed.

Lemma emits_bind_lift (r : result A) (k : A → M B) :
  (∀ a, r = Ok a → emits P (k a)) → emits P (bind (lift r) k).
Proof.
  intros Hk s. destruct r as [a|e].
  - by apply Hk.
  - exists []. by rewrite app_nil_r.
Qed.

End Emits.

(* ===================================================================== *)
(** * The loops *)
(* ===================================================================== *)

Section Loops.
Context `{Security}.

Lemma encode_defined isEnc v c :
  encode isEnc v = Ok c → is_undefined v = false → is_undefined c = false.
Proof.
  unfold encode. destruct isEnc.
  - destruct (encrypt v); [|done]. by intros [= <-].
  - by intros [= <-].
Qed.

Lemma seed_lookup_notin st ks acc d k :
  seed st ks acc = Ok d → k ∉ ks → d !! k = acc !! k.
Proof.
  revert acc. induction ks as [|key rest IH]; intros acc; cbn [seed].
  - by intros [= <-].
  - destruct (encode _ _) as [v|e]; [|done].
    intros Hd Hk. apply not_elem_of_cons in Hk as [Hne Hk].
    rewrite (IH _ Hd Hk). by rewrite lookup_insert_ne.
Qed.

Lemma seed_lookup st ks acc d k :
  seed st ks acc = Ok d → k ∈ ks →
  ∃ v, encode (isEncrypted st) (entry (defaults st) k) = Ok v ∧ d !! k = Some v.
Proof.
  revert acc. induction ks as [|key rest IH]; intros acc; cbn [seed].
  - by intros _ ?%elem_of_nil.
  - destruct (encode _ (entry _ key)) as [v|e] eqn:Hv; [|done].
    intros Hd Hk. destruct (decide (k ∈ rest)) as [Hin|Hnin].
    + by apply (IH _ Hd).
    + apply elem_of_cons in Hk as [->|?]; [|done].
      exists v. split; [done|].
      rewrite (seed_lookup_notin _ _ _ _ _ Hd Hnin). by rewrite lookup_insert_eq.
Qed.

Lemma seed_dom st ks d k :
  seed st ks ∅ = Ok d → is_Some (d !! k) → k ∈ ks.
Proof.
  intros Hd Hk. destruct (decide (k ∈ ks)) as [|Hnin]; [done|].
  rewrite (seed_lookup_notin _ _ _ _ _ Hd Hnin), lookup_empty in Hk.
  by destruct Hk.
Qed.

Lemma seed_succeeds st ks acc :
  (∀ k, k ∈ ks → is_ok (encode (isEncrypted st) (entry (defaults st) k)) = true) →
  ∃ d, seed st ks acc = Ok d.
Proof.
  revert acc. induction ks as [|key rest IH]; intros acc Hks; cbn [seed].
  - by eexists.
  - pose proof (Hks key ltac:(by left)) as Hkey.
    destruct (encode _ _) as [v|e]; [|done].
    apply IH. intros k Hk. apply Hks. by right.
Qed.

Lemma split_entries_spec st entries R W R' W' :
  split_entries st entries R W = Ok (R', W') →
  R' = R ++ sentinel_keys st entries ∧
  (∀ ak c, W' !! ak = Some c →
     W !! ak = Some c ∨
     ∃ k v, (k, v) ∈ entries ∧ is_undefined v = false ∧
            ak = actualKey (storeId st) k ∧ encode (isEncrypted st) v = Ok c) ∧
  (∀ ak, is_Some (W !! ak) → is_Some (W' !! ak)) ∧
  (∀ k v, (k, v) ∈ entries → is_undefined v = false →
     is_Some (W' !! actualKey (storeId st) k)).
Proof.
  revert R W. induction entries as [|[k0 v0] rest IH]; intros R W; cbn [split_entries].
  - intros [= <- <-]. unfold sentinel_keys. simpl. rewrite app_nil_r.
    repeat split; [by left|done|by intros ?? ?%elem_of_nil].
  - unfold sentinel_keys. cbn [List.filter snd fst].
    destruct (is_undefined v0) eqn:Hv0.
    + intros (-> & Hfrom & Hkeep & Hall)%IH. repeat split.
      * by rewrite <- (assoc_L (++)).
      * intros ak c [?|(k & v & Hin & ?)]%Hfrom; [by left|right].
        exists k, v. split; [by right|done].
      * done.
      * intros k v [[= -> ->]|Hin]%elem_of_cons Hv; [congruence|by eapply Hall].
    + destruct (encode _ v0) as [c0|e] eqn:Hc0; [|done].
      intros (-> & Hfrom & Hkeep & Hall)%IH. repeat split.
      * intros ak c [Hold|(k & v & Hin & ?)]%Hfrom.
        -- destruct (decide (actualKey (storeId st) k0 = ak)) as [<-|Hne].
           ++ rewrite lookup_insert_eq in Hold. injection Hold as <-.
              right. exists k0, v0. split; [by left|done].
           ++ rewrite lookup_insert_ne in Hold by done. by left.
        -- right. exists k, v. split; [by right|done].
      * intros ak Hak. apply Hkeep.
        destruct (decide (actualKey (storeId st) k0 = ak)) as [<-|Hne].
        -- by rewrite lookup_insert_eq.
        -- by rewrite lookup_insert_ne.
      * intros k v [[= -> ->]|Hin]%elem_of_cons Hv; [|by eapply Hall].
        apply Hkeep. by rewrite lookup_insert_eq.
Qed.

End Loops.

(* ===================================================================== *)
(** * Key confinement *)
(* ===================================================================== *)

(** [let* _ := host c in ret tt]: the one call is all there is to check. *)
Ltac one_call :=
  apply emits_bind; [apply emits_host|intros; apply emits_ret].

Section Confinement.
Context `{Security}.

Lemma createStore_well_keyed sid defs a opts s st s' :
  createStore sid defs a opts s = (Ok st, s') → well_keyed st.
Proof.
  unfold createStore. destruct (_ && _); [done|]. by intros [= <- _].
Qed.

Lemma actualKey_within st k :
  well_keyed st → k ∈ actualKeys st →
  ∃ logicalKey, logicalKey ∈ keys st ∧ k = storeId st +:+ ":" +:+ logicalKey.
Proof.
  intros Hst Hk. rewrite Hst in Hk.
  apply list_elem_of_fmap in Hk as (logicalKey & -> & Hin). by exists logicalKey.
Qed.

Lemma within_read_all st : well_keyed st → within st (HGet (area st) (actualKeys st)).
Proof. intros Hst. split; [done|]. intros k Hk. by apply actualKey_within. Qed.

Lemma within_one st (c : StorageArea → list string → HostCall) key :
  (c = HGet ∨ c = HRemove) → key ∈ keys st →
  within st (c (area st) [actualKey (storeId st) key]).
Proof.
  intros [-> | ->] Hkey; (split; [done|]);
    intros k ->%list_elem_of_singleton; by exists key.
Qed.

Lemma missing_declared st (data : gmap string value) k :
  k ∈ List.filter (λ key, is_undefined (prop data key)) (actualKeys st) →
  k ∈ actualKeys st.
Proof. rewrite !list_elem_of_In, filter_In. tauto. Qed.

Lemma initialize_confined st : well_keyed st → confined st (initialize st).
Proof.
  intros Hst. unfold confined, initialize.
  apply emits_bind; [by apply emits_host, within_read_all|].
  intros data. apply emits_bind.
  - destruct (List.filter _ _) as [|key missing] eqn:Hmissing; [apply emits_ret|].
    apply emits_bind_lift. intros d Hd.
    one_call. split; [done|].
    intros k Hk. apply actualKey_within; [done|].
    apply (missing_declared st data). rewrite Hmissing.
    by apply (seed_dom _ _ _ _ Hd).
  - intros _ s. exists []. by rewrite app_nil_r.
Qed.

Lemma ensureInitialized_confined st : well_keyed st → confined st (ensureInitialized st).
Proof.
  intros Hst s. unfold ensureInitialized.
  destruct (hasInitialized s).
  - exists []. by rewrite app_nil_r.
  - by apply initialize_confined.
Qed.

Lemma get_confined st key : well_keyed st → key ∈ keys st → confined st (get st key).
Proof.
  intros Hst Hkey. unfold confined, get.
  apply emits_bind; [by apply ensureInitialized_confined|]. intros _.
  apply emits_bind; [|intros; apply emits_lift].
  apply emits_host. apply (within_one st HGet); auto.
Qed.

Lemma set_key_confined st key v :
  well_keyed st → key ∈ keys st → confined st (set st (AKey key) v).
Proof.
  intros Hst Hkey. unfold confined, set.
  apply emits_bind; [by apply ensureInitialized_confined|]. intros _.
  cbn [key_text]. destruct (is_undefined v).
  - one_call. apply (within_one st HRemove); auto.
  - apply emits_bind_lift. intros c _.
    one_call. split; [done|].
    intros k [w Hk]. apply lookup_singleton_Some in Hk as [<- _]. by exists key.
Qed.

Lemma set_bulk_confined st entries :
  well_keyed st → (∀ k v, (k, v) ∈ entries → k ∈ keys st) →
  confined st (set st (AObject entries) undefined).
Proof.
  intros Hst Hentries. unfold confined, set.
  apply emits_bind; [by apply ensureInitialized_confined|]. intros _.
  cbn [is_undefined]. apply emits_bind_lift. intros [R W] Hsplit.
  apply split_entries_spec in Hsplit as (HR & HW & _ & _).
  cbn [fst snd app] in *. apply emits_bind.
  - destruct R as [|r R']; [apply emits_ret|].
    one_call. split; [done|].
    intros k Hk. cbn [touches] in Hk. rewrite HR in Hk.
    apply list_elem_of_fmap in Hk as ([k0 v0] & -> & Hin).
    apply list_elem_of_In, filter_In in Hin as [Hin%list_elem_of_In _].
    exists k0. split; [by eapply Hentries|done].
  - intros _. case_bool_decide; [apply emits_ret|].
    one_call. split; [done|].
    intros ak [c Hc]. apply HW in Hc as [Hc|(k & v & Hin & _ & -> & _)].
    + by rewrite lookup_empty in Hc.
    + exists k. split; [by eapply Hentries|done].
Qed.

Lemma all_confined st : well_keyed st → confined st (all st).
Proof.
  intros Hst. unfold confined, all.
  apply emits_bind; [by apply ensureInitialized_confined|]. intros _.
  apply emits_bind; [by apply emits_host, within_read_all|].
  intros fullStore. destruct (isEncrypted st); [|apply emits_ret].
  apply emits_bind_lift. intros; apply emits_ret.
Qed.

(** The confinement rests on the key arguments being declared keys: the
    methods themselves prefix whatever key they are given. *)
Example undeclared_key_is_prefixed :
  trace (get prefs "other" (with_hasInitialized true (fresh_page None))).2
    = [HGet local ["prefs:other"]].
Proof. reflexivity. Qed.

(** C7.  Every host call made by [initialize], [get], the two forms of
    [set] and [all] on a store that [createStore] returned addresses the
    store's area and names only keys of the form [storeId:logicalKey] for a
    logicalKey declared at construction, provided the key arguments are
    declared keys (the type [K extends keyof T] of the interface). *)
Theorem store_calls_confined sid defs a opts s0 st s0'
    (key : string) (entries : list (string * value)) (value : value) :
  createStore sid defs a opts s0 = (Ok st, s0') →
  key ∈ keys st →
  (∀ k v, (k, v) ∈ entries → k ∈ keys st) →
  confined st (initialize st) ∧
  confined st (get st key) ∧
  confined st (set st (AKey key) value) ∧
  confined st (set st (AObject entries) undefined) ∧
  confined st (all st).
Proof.
  intros Hst%createStore_well_keyed Hkey Hentries.
  repeat split.
  - by apply initialize_confined.
  - by apply get_confined.
  - by apply set_key_confined.
  - by apply set_bulk_confined.
  - by apply all_confined.
Qed.

End Confinement.

(* ===================================================================== *)
(** * Construction *)
(* ===================================================================== *)

Section Construction.
Context `{Security}.

(** C5.  [createStore] never touches the host: storage, trace and
    listeners are what they were.  When encryption is requested and
    [EXTENSION_STORAGE_PASSWORD] is unset or empty it throws, leaving the
    whole state as it was and handing out no store; otherwise it returns a
    store. *)
Theorem createStore_checks_secret_first sid defs a opts s :
  let r := createStore sid defs a opts s in
  storage r.2 = storage s ∧ trace r.2 = trace s ∧ listeners r.2 = listeners s ∧
  if requested opts && not_set (EXTENSION_STORAGE_PASSWORD s)
  then r = (Err MISSING_PASSWORD_ERROR, s)
  else ∃ st, r.1 = Ok st ∧ storeId st = sid ∧ isEncrypted st = requested opts.
Proof.
  unfold createStore. destruct (_ && _); cbn.
  - done.
  - repeat split. by eexists.
Qed.

End Construction.

(* ===================================================================== *)
(** * Subscriptions *)
(* ===================================================================== *)

Section Subscriptions.
Context `{Security}.

Lemma sub_other_area st key callback changes areaName s :
  areaName ≠ area_name (area st) →
  sub st key callback changes areaName s = (Ok tt, s).
Proof.
  intros Hne%String.eqb_neq. unfold sub. by rewrite Hne.
Qed.

Lemma sub_other_key st key callback changes areaName s :
  changes !! actualKey (storeId st) key = None →
  sub st key callback changes areaName s = (Ok tt, s).
Proof.
  intros Hkey. unfold sub. rewrite Hkey. by destruct (negb _).
Qed.

(** C6.  The listener that [subscribe] registers does nothing, and
    resolves, when it is called with an area name other than the store's
    or with a change set that lacks the actual key [storeId:key]: the whole
    state, the record of callback invocations included, is left as it
    was. *)
Theorem listener_ignores_foreign_events st key callback s h s1
    (changes : gmap string DataChange) (areaName : string) (s' : State) :
  subscribe st key callback s = (Ok h, s1) →
  areaName ≠ area_name (area st) ∨ changes !! actualKey (storeId st) key = None →
  h ∈ listeners s1 ∧
  call_listener h changes areaName s' = (Ok tt, s').
Proof.
  unfold subscribe. intros [= <- <-] Hforeign. split.
  - cbn. apply elem_of_app. right. by left.
  - cbn [call_listener]. destruct Hforeign.
    + by apply sub_other_area.
    + by apply sub_other_key.
Qed.

Lemma filter_keeps_all (g : jsfun) (fs : list jsfun) :
  (∀ f, f ∈ fs → same_fn f g = false) →
  List.filter (λ f, negb (same_fn f g)) fs = fs.
Proof.
  induction fs as [|f fs IH]; intros Hfs; [done|].
  cbn [List.filter]. rewrite (Hfs f) by by left. cbn [negb].
  f_equal. apply IH. intros f' Hf'. apply Hfs. by right.
Qed.

Lemma elem_of_unsubscribed (f g : jsfun) (fs : list jsfun) :
  f ∈ List.filter (λ f', negb (same_fn f' g)) fs ↔ f ∈ fs ∧ same_fn f g = false.
Proof.
  rewrite !list_elem_of_In, filter_In, negb_true_iff. done.
Qed.



Lemma with_listeners_same s : with_listeners (listeners s) (next_fn s) s = s.
Proof. by destruct s. Qed.

Lemma unsubscribe_unregistered g s :
  (∀ f, f ∈ listeners s → same_fn f g = false) → unsubscribe g s = (Ok tt, s).
Proof.
  intros Hg. unfold unsubscribe. rewrite filter_keeps_all by done.
  by rewrite with_listeners_same.
Qed.




End Subscriptions.

(* ===================================================================== *)
(** * Initialization *)
(* ===================================================================== *)

Section Initialization.
Context `{Security}.

Lemma elem_of_absent_keys st cs k :
  k ∈ absent_keys st cs ↔ k ∈ actualKeys st ∧ area_of (area st) cs !! k = None.
Proof.
  unfold absent_keys. rewrite list_elem_of_In, filter_In, <- list_elem_of_In.
  split.
  - intros [Hk Hundef]. split; [done|].
    rewrite prop_area_read in Hundef by done.
    by destruct (area_of (area st) cs !! k).
  - intros [Hk Hnone]. split; [done|].
    rewrite prop_area_read by done. by rewrite Hnone.
Qed.

(** [initialize], step by step: the batched read, the loop over the
    missing keys, the batched write, the flag. *)
Lemma initialize_run st s :
  let t1 := trace s ++ [HGet (area st) (actualKeys st)] in
  initialize st s =
    if faults s (length (trace s))
    then (Err HostError, with_host (storage s) t1 s)
    else
      match absent_keys st (storage s) with
      | [] => (Ok tt, with_hasInitialized true (with_host (storage s) t1 s))
      | _ :: _ =>
          match seed st (absent_keys st (storage s)) ∅ with
          | Err e => (Err e, with_host (storage s) t1 s)
          | Ok d =>
              let t2 := t1 ++ [HSet (area st) d] in
              if faults s (length t1)
              then (Err HostError, with_host (storage s) t2 s)
              else (Ok tt,
                    with_hasInitialized true
                      (with_host (host_effect (HSet (area st) d) (storage s)) t2 s))
          end
      end.
Proof.
  cbn zeta. unfold initialize, bind, host.
  destruct (faults s (length (trace s))); [done|].
  cbn [host_reply host_effect storage with_host]. fold (absent_keys st (storage s)).
  destruct (absent_keys st (storage s)) as [|key missing]; [done|].
  unfold lift. destruct (seed st (key :: missing) ∅) as [d|e]; [|done].
  cbn [trace faults with_host storage].
  by destruct (faults s (length (trace s ++ [HGet (area st) (actualKeys st)]))).
Qed.

Lemma initialize_sets_flag st s s' : initialize st s = (Ok tt, s') → hasInitialized s' = true.
Proof.
  rewrite initialize_run. cbn zeta.
  repeat (case_match; try done); by intros [= <-].
Qed.


Lemma initialize_first_call st s :
  ∃ rest, trace (initialize st s).2 = trace s ++ HGet (area st) (actualKeys st) :: rest.
Proof.
  rewrite initialize_run. cbn zeta.
  repeat case_match; cbn; rewrite <- ?(assoc_L (++)); by eexists.
Qed.





(** A batched write in which no property holds data leaves the host as
    it is. *)
Lemma write_nothing_storable a (d : gmap string value) cs :
  (∀ k j, d !! k = Some (defined j) → False) →
  host_effect (HSet a d) cs = cs.
Proof.
  intros Hd. cbn [host_effect].
  replace (area_write d (area_of a cs)) with (area_of a cs);
    [apply with_area_same|].
  apply map_eq. intros k. rewrite lookup_area_write.
  destruct (d !! k) as [[|j]|] eqn:Hk; [done| |done].
  by destruct (Hd k j).
Qed.

(** What a pass leaves in the host: nothing new, or the seeded defaults. *)
Lemma initialize_storage st s :
  storage (initialize st s).2 = storage s ∨
  ∃ d, seed st (absent_keys st (storage s)) ∅ = Ok d ∧
       (initialize st s).1 = Ok tt ∧
       storage (initialize st s).2 = host_effect (HSet (area st) d) (storage s).
Proof.
  rewrite initialize_run. cbn zeta.
  destruct (faults s (length (trace s))); [by left|].
  destruct (absent_keys st (storage s)) as [|key missing]; [by left|].
  destruct (seed st (key :: missing) ∅) as [d|e]; [|by left].
  destruct (faults s _); [by left|]. right. by exists d.
Qed.

Lemma initialize_storage_ok st s :
  (initialize st s).1 = Ok tt →
  ∃ d, seed st (absent_keys st (storage s)) ∅ = Ok d ∧
       storage (initialize st s).2 = host_effect (HSet (area st) d) (storage s).
Proof.
  rewrite initialize_run. cbn zeta.
  destruct (faults s (length (trace s))); [done|].
  destruct (absent_keys st (storage s)) as [|key missing].
  - intros _. exists ∅. split; [done|]. cbn [snd storage with_hasInitialized with_host].
    symmetry. apply write_nothing_storable. intros k j. by rewrite lookup_empty.
  - destruct (seed st (key :: missing) ∅) as [d|e]; [|done].
    destruct (faults s _); [done|]. intros _. by exists d.
Qed.

(** The batched write of [initialize] names the missing keys and no
    other. *)
Lemma seeded_keys st cs d k :
  seed st (absent_keys st cs) ∅ = Ok d →
  is_Some (d !! k) ↔ k ∈ absent_keys st cs.
Proof.
  intros Hd. split.
  - by apply (seed_dom _ _ _ _ Hd).
  - intros Hk. destruct (seed_lookup _ _ _ _ _ Hd Hk) as (v & _ & ->). by eexists.
Qed.

Lemma seeding_keeps_values st cs d a k j :
  seed st (absent_keys st cs) ∅ = Ok d →
  area_of a cs !! k = Some j →
  area_of a (host_effect (HSet (area st) d) cs) !! k = Some j.
Proof.
  intros Hd Hk. cbn [host_effect].
  destruct (decide (area st = a)) as [<-|Hne];
    [|by rewrite area_of_with_area_ne].
  rewrite area_of_with_area, lookup_area_write.
  destruct (d !! k) as [[|j']|] eqn:Hdk; [done| |done].
  assert (k ∈ absent_keys st cs) as Habsent
    by (apply (seeded_keys _ _ _ _ Hd); by eexists).
  apply elem_of_absent_keys in Habsent as [_ Hnone]. congruence.
Qed.

(** Seeding again right after a pass that resolved writes nothing: a key
    still missing got a default that is not data, and gets it again. *)
Lemma reseed_nothing_storable st cs d d' k j :
  seed st (absent_keys st cs) ∅ = Ok d →
  seed st (absent_keys st (host_effect (HSet (area st) d) cs)) ∅ = Ok d' →
  d' !! k = Some (defined j) → False.
Proof.
  intros Hd Hd' Hk.
  assert (k ∈ absent_keys st (host_effect (HSet (area st) d) cs)) as Habsent'
    by (apply (seeded_keys _ _ _ _ Hd'); by eexists).
  pose proof Habsent' as [Hdecl Hnone]%elem_of_absent_keys.
  cbn [host_effect] in Hnone.
  rewrite area_of_with_area, lookup_area_write in Hnone.
  destruct (seed_lookup _ _ _ _ _ Hd' Habsent') as (v' & Hv' & Hk').
  assert (k ∈ absent_keys st cs) as Habsent.
  { apply elem_of_absent_keys. split; [done|].
    by destruct (d !! k) as [[|?]|]. }
  destruct (seed_lookup _ _ _ _ _ Hd Habsent) as (v & Hv & Hdk).
  rewrite Hdk in Hnone. rewrite Hk in Hk'. injection Hk' as <-.
  rewrite Hv' in Hv. by injection Hv as <-.
Qed.

(** C2.  The calls of one pass of [initialize] are the batched read,
    followed by at most one batched write whose keys are exactly the
    actual keys the read found missing.  No value the host holds is
    changed, in any area.  After a pass that resolved, a second pass
    leaves the host storage as the first one left it. *)
Theorem initialize_seeds_missing_keys_once st s :
  let r := initialize st s in
  (trace r.2 = trace s ++ [HGet (area st) (actualKeys st)] ∨
   ∃ items,
     trace r.2 = trace s ++ [HGet (area st) (actualKeys st); HSet (area st) items] ∧
     ∀ k, is_Some (items !! k) ↔ k ∈ absent_keys st (storage s)) ∧
  (∀ a k j, area_of a (storage s) !! k = Some j →
            area_of a (storage r.2) !! k = Some j) ∧
  (r.1 = Ok tt → storage (initialize st r.2).2 = storage r.2).
Proof.
  cbn zeta. split; [|split].
  - rewrite initialize_run. cbn zeta.
    destruct (faults s (length (trace s))); [by left|].
    destruct (absent_keys st (storage s)) as [|key missing] eqn:Habsent; [by left|].
    destruct (seed st (key :: missing) ∅) as [d|e] eqn:Hd; [|by left].
    rewrite <- Habsent in Hd. right. exists d. split.
    + destruct (faults s _); cbn [snd trace with_host with_hasInitialized];
        by rewrite <- (assoc_L (++)).
    + intros k. rewrite <- Habsent. by apply seeded_keys.
  - intros a k j Hk.
    destruct (initialize_storage st s) as [->|(d & Hd & _ & ->)]; [done|].
    by apply seeding_keeps_values.
  - intros (d & Hd & Hstorage)%initialize_storage_ok.
    destruct (initialize_storage st (initialize st s).2)
      as [Hsame|(d' & Hd' & _ & ->)]; [done|].
    apply write_nothing_storable. intros k j.
    rewrite Hstorage in Hd'. by apply (reseed_nothing_storable _ _ _ _ _ _ Hd Hd').
Qed.

End Initialization.

(* ===================================================================== *)
(** * Reading and writing *)
(* ===================================================================== *)

Section ReadWrite.
Context `{Security}.

Lemma encode_succeeds isEnc v :
  (isEnc = true → ∀ u, is_ok (encrypt u) = true) → is_ok (encode isEnc v) = true.
Proof.
  intros Henc. unfold encode. destruct isEnc; [|done].
  specialize (Henc eq_refl v). by destruct (encrypt v).
Qed.

(** With a host that rejects nothing and a collaborator that encrypts
    whatever it is given, the guard resolves and leaves the flag up. *)
Lemma ensureInitialized_resolves st s :
  reliable s →
  (isEncrypted st = true → ∀ u, is_ok (encrypt u) = true) →
  ∃ s0, ensureInitialized st s = (Ok tt, s0) ∧
        hasInitialized s0 = true ∧ faults s0 = faults s.
Proof.
  intros Hhost Henc. unfold ensureInitialized.
  destruct (hasInitialized s) eqn:Hflag; [by exists s|].
  rewrite initialize_run. cbn zeta. rewrite Hhost.
  destruct (absent_keys st (storage s)) as [|key missing]; [by eexists|].
  destruct (seed_succeeds st (key :: missing) ∅) as [d ->];
    [intros; by apply encode_succeeds|].
  rewrite Hhost. by eexists.
Qed.

(** [set(key, value)] once the guard has resolved in [s0]. *)
Lemma set_key_run st key v s s0 :
  ensureInitialized st s = (Ok tt, s0) →
  faults s0 (length (trace s0)) = false →
  set st (AKey key) v s =
    let ak := actualKey (storeId st) key in
    if is_undefined v
    then (Ok tt,
          with_host (host_effect (HRemove (area st) [ak]) (storage s0))
            (trace s0 ++ [HRemove (area st) [ak]]) s0)
    else
      match encode (isEncrypted st) v with
      | Ok c =>
          (Ok tt,
           with_host (host_effect (HSet (area st) {[ ak := c ]}) (storage s0))
             (trace s0 ++ [HSet (area st) {[ ak := c ]}]) s0)
      | Err e => (Err e, s0)
      end.
Proof.
  intros Hguard Hhost. unfold set. rewrite (bind_ok _ _ _ _ _ Hguard).
  cbn [key_text]. cbn zeta. destruct (is_undefined v).
  - unfold bind. by rewrite host_accepted.
  - unfold bind, lift. destruct (encode (isEncrypted st) v) as [c|e]; [|done].
    by rewrite host_accepted.
Qed.

(** [get(key)] on an initialized store. *)
Lemma get_run st key s :
  hasInitialized s = true →
  faults s (length (trace s)) = false →
  get st key s =
    let ak := actualKey (storeId st) key in
    (decode (isEncrypted st)
       match area_of (area st) (storage s) !! ak with
       | Some j => defined j
       | None => undefined
       end,
     with_host (storage s) (trace s ++ [HGet (area st) [ak]]) s).
Proof.
  intros Hflag Hhost. unfold get, bind, ensureInitialized. rewrite Hflag.
  rewrite host_accepted by done. cbn [host_reply host_effect lift].
  rewrite prop_area_read by by left. done.
Qed.

(** C3.  With a host that rejects nothing (and, for an encrypted store,
    a collaborator that encrypts every value and decrypts [undefined] to
    [undefined]): [set(key, undefined)] resolves; after the guard its only
    host call is the removal of [storeId:key]; the area no longer holds
    that key and holds every other key as before.  The [get(key)] that
    follows makes one read and no write, and resolves with [undefined]. *)
Theorem set_undefined_removes_key st key s :
  reliable s →
  (isEncrypted st = true →
     (∀ u, is_ok (encrypt u) = true) ∧ decrypt undefined = Ok undefined) →
  let s0 := (ensureInitialized st s).2 in
  let ak := actualKey (storeId st) key in
  let r1 := set st (AKey key) undefined s in
  let r2 := get st key r1.2 in
  r1.1 = Ok tt ∧
  trace r1.2 = trace s0 ++ [HRemove (area st) [ak]] ∧
  area_of (area st) (storage r1.2) !! ak = None ∧
  (∀ a k, (a, k) ≠ (area st, ak) →
          area_of a (storage r1.2) !! k = area_of a (storage s0) !! k) ∧
  r2.1 = Ok undefined ∧
  trace r2.2 = trace r1.2 ++ [HGet (area st) [ak]] ∧
  storage r2.2 = storage r1.2.
Proof.
  intros Hhost Hsec. cbn zeta.
  destruct (ensureInitialized_resolves st s Hhost) as (s0 & Hguard & Hflag & Hfaults);
    [intros Henc; by apply Hsec|].
  assert (reliable s0) as Hhost0 by (intros n; by rewrite Hfaults).
  rewrite (set_key_run _ _ _ _ _ Hguard) by done. rewrite Hguard.
  cbn [is_undefined fst snd trace storage with_host].
  assert (area_of (area st)
            (host_effect (HRemove (area st) [actualKey (storeId st) key]) (storage s0))
            !! actualKey (storeId st) key = None) as Hgone.
  { cbn [host_effect]. rewrite area_of_with_area, lookup_area_remove.
    by rewrite decide_True by by left. }
  rewrite get_run; [|exact Hflag|apply Hhost0].
  cbn zeta. cbn [fst snd trace storage with_host].
  rewrite Hgone. repeat split.
  - intros a k Hother. cbn [host_effect].
    destruct (decide (area st = a)) as [<-|Hne];
      [|by rewrite area_of_with_area_ne].
    rewrite area_of_with_area, lookup_area_remove.
    rewrite decide_False; [done|].
    intros ->%list_elem_of_singleton. by destruct Hother.
  - unfold decode. destruct (isEncrypted st); [|done]. by apply Hsec.
Qed.

(** C8.  For an encrypted store, with a host that rejects nothing and a
    collaborator that encrypts every value and decrypts the ciphertext of
    [v] back to [v] (both follow from [decrypt(encrypt(v)) == v] for all
    values): [set(key, v)] with [v] other than [undefined] resolves, and
    the [get(key)] that follows resolves with [v]. *)
Theorem encrypted_set_then_get st key v s :
  isEncrypted st = true →
  reliable s →
  (∀ u, is_ok (encrypt u) = true) →
  (∀ c, encrypt v = Ok c → decrypt (defined (JStr c)) = Ok v) →
  is_undefined v = false →
  let r1 := set st (AKey key) v s in
  r1.1 = Ok tt ∧ (get st key r1.2).1 = Ok v.
Proof.
  intros Henc Hhost Htotal Hround Hv. cbn zeta.
  destruct (ensureInitialized_resolves st s Hhost) as (s0 & Hguard & Hflag & Hfaults);
    [done|].
  assert (reliable s0) as Hhost0 by (intros n; by rewrite Hfaults).
  rewrite (set_key_run _ _ _ _ _ Hguard) by done. cbn zeta.
  rewrite Hv, Henc. unfold encode.
  specialize (Htotal v). destruct (encrypt v) as [c|e] eqn:Hc; [|done].
  cbn [fst snd]. split; [done|].
  rewrite get_run; [|exact Hflag|apply Hhost0].
  cbn zeta. cbn [fst storage with_host host_effect].
  rewrite area_of_with_area, lookup_area_write, lookup_singleton_eq.
  rewrite Henc. cbn [decode]. by apply Hround.
Qed.


Lemma area_write_empty (m : gmap string json) : area_write ∅ m = m.
Proof. unfold area_write. by rewrite omap_empty, (left_id_L ∅ (∪)). Qed.

Lemma split_entries_succeeds st entries R W :
  (∀ k v, (k, v) ∈ entries → is_ok (encode (isEncrypted st) v) = true) →
  ∃ R' W', split_entries st entries R W = Ok (R', W').
Proof.
  revert R W. induction entries as [|[k0 v0] rest IH]; intros R W Hok;
    cbn [split_entries]; [by eexists _, _|].
  assert (∀ k v, (k, v) ∈ rest → is_ok (encode (isEncrypted st) v) = true) as Hrest
    by (intros k v Hin; apply (Hok k v); by right).
  destruct (is_undefined v0); [by apply IH|].
  pose proof (Hok k0 v0 ltac:(by left)) as Hk0.
  destruct (encode _ v0) as [c|e]; [|done]. by apply IH.
Qed.

(** The bulk [set] once the guard has resolved in [s0], on a host that
    rejects nothing: the removal, then the write. *)
Lemma set_bulk_run st entries s s0 R W :
  ensureInitialized st s = (Ok tt, s0) →
  reliable s0 →
  split_entries st entries [] ∅ = Ok (R, W) →
  ∃ s1, set st (AObject entries) undefined s = (Ok tt, s1) ∧
        hasInitialized s1 = hasInitialized s0 ∧ faults s1 = faults s0 ∧
        area_of (area st) (storage s1)
          = area_write W (area_remove R (area_of (area st) (storage s0))).
Proof.
  intros Hguard Hhost Hsplit. unfold set.
  rewrite (bind_ok _ _ _ _ _ Hguard). cbn [is_undefined].
  rewrite (bind_ok _ _ s0 (R, W) s0) by (unfold lift; by rewrite Hsplit).
  cbn [fst snd]. unfold bind.
  destruct R as [|r0 R0].
  - cbn [ret area_remove foldr]. case_bool_decide as HW.
    + exists s0. subst W. by rewrite area_write_empty.
    + rewrite host_accepted by apply Hhost. eexists. split; [done|].
      cbn [hasInitialized faults storage with_host host_effect].
      by rewrite area_of_with_area.
  - rewrite host_accepted by apply Hhost. cbn [ret].
    case_bool_decide as HW.
    + eexists. split; [done|].
      cbn [hasInitialized faults storage with_host host_effect].
      subst W. by rewrite area_of_with_area, area_write_empty.
    + rewrite host_accepted by apply Hhost. eexists. split; [done|].
      cbn [hasInitialized faults storage with_host host_effect].
      by rewrite !area_of_with_area.
Qed.

(** The calls of the bulk [set], whichever of them the host rejects. *)
Lemma bulk_set_calls st entries s :
  let s0 := (ensureInitialized st s).2 in
  let r := set st (AObject entries) undefined s in
  ∃ removal write,
    trace r.2 = trace s0 ++ removal ++ write ∧
    (removal = [] ∨
     sentinel_keys st entries ≠ [] ∧
     removal = [HRemove (area st) (sentinel_keys st entries)]) ∧
    (write = [] ∨
     ∃ items, write = [HSet (area st) items] ∧ items ≠ ∅ ∧
       (∀ ak c, items !! ak = Some c →
          is_undefined c = false ∧
          ∃ k v, (k, v) ∈ entries ∧ is_undefined v = false ∧
                 ak = actualKey (storeId st) k ∧
                 encode (isEncrypted st) v = Ok c) ∧
       (∀ k v, (k, v) ∈ entries → is_undefined v = false →
          is_Some (items !! actualKey (storeId st) k))) ∧
    (r.1 = Ok tt →
       (sentinel_keys st entries ≠ [] → removal ≠ []) ∧
       ((∃ k v, (k, v) ∈ entries ∧ is_undefined v = false) → write ≠ [])).
Proof.
  cbn zeta. unfold set, bind.
  destruct (ensureInitialized st s) as [[[]|e] s0]; cbn [fst snd is_undefined];
    [|exists [], []; rewrite app_nil_r; by auto].
  unfold lift.
  destruct (split_entries st entries [] ∅) as [[R W]|e] eqn:Hsplit;
    [|exists [], []; rewrite app_nil_r; by auto].
  apply split_entries_spec in Hsplit as (HR & Hfrom & _ & Hall).
  cbn [app fst snd] in *.
  assert (∀ ak c, W !! ak = Some c →
            is_undefined c = false ∧
            ∃ k v, (k, v) ∈ entries ∧ is_undefined v = false ∧
                   ak = actualKey (storeId st) k ∧
                   encode (isEncrypted st) v = Ok c) as HW.
  { intros ak c [Hc|(k & v & Hin & Hv & -> & Hc)]%Hfrom;
      [by rewrite lookup_empty in Hc|].
    split; [by eapply encode_defined|]. by exists k, v. }
  assert ((∃ k v, (k, v) ∈ entries ∧ is_undefined v = false) → W ≠ ∅) as Hsome.
  { intros (k & v & Hin & Hv) ->. destruct (Hall k v Hin Hv) as [c Hc].
    by rewrite lookup_empty in Hc. }
  (* the write, from any state [s1] reached after the removal *)
  assert (∀ s1, ∃ write,
            trace ((if bool_decide (W = ∅) then ret tt
                    else let* _ := host (HSet (area st) W) in ret tt) s1).2
              = trace s1 ++ write ∧
            (write = [] ∨ write = [HSet (area st) W] ∧ W ≠ ∅) ∧
            (W ≠ ∅ → write ≠ [])) as Hwrite.
  { intros s1. case_bool_decide as HWe.
    - exists []. rewrite app_nil_r. by auto.
    - exists [HSet (area st) W]. unfold bind, host.
      destruct (faults s1 _); by auto. }
  destruct R as [|r0 R0].
  - (* no entry holds undefined *)
    destruct (Hwrite s0) as (write & Htrace & Hshape & Hmade).
    exists [], write. cbn [ret app]. split; [exact Htrace|]. split; [by left|]. split.
    + destruct Hshape as [->|[-> HWne]]; [by left|right]. by exists W.
    + intros _. split; [by rewrite <- HR|]. intros Hex. by apply Hmade, Hsome.
  - (* some entry holds undefined *)
    assert (sentinel_keys st entries ≠ []) as Hne by by rewrite <- HR.
    destruct (faults s0 (length (trace s0))) eqn:Hfault;
      [rewrite (host_rejected _ _ Hfault)|rewrite (host_accepted _ _ Hfault)].
    + (* the removal is rejected *)
      exists [HRemove (area st) (r0 :: R0)], []. cbn [fst snd trace with_host].
      split; [by rewrite app_nil_r|]. split; [right; by rewrite <- HR|]. split; [by left|done].
    + cbn [ret]. match goal with |- context [with_host ?cs ?t s0] =>
        destruct (Hwrite (with_host cs t s0)) as (write & Htrace & Hshape & Hmade) end.
      exists [HRemove (area st) (r0 :: R0)], write.
      split; [etrans; [exact Htrace|]; cbn [trace with_host];
              by rewrite <- (assoc_L (++))|].
      split; [right; by rewrite <- HR|]. split.
      * destruct Hshape as [->|[-> HWne]]; [by left|right]. by exists W.
      * intros _. split; [done|]. intros Hex. by apply Hmade, Hsome.
Qed.

(** On a host that rejects nothing, with every value encoded, the bulk
    [set] resolves. *)
Lemma bulk_set_resolves st entries s :
  reliable s →
  (isEncrypted st = true → ∀ u, is_ok (encrypt u) = true) →
  (set st (AObject entries) undefined s).1 = Ok tt.
Proof.
  intros Hhost Henc.
  destruct (ensureInitialized_resolves st s Hhost Henc) as (s0 & Hguard & _ & Hfaults).
  assert (reliable s0) as Hhost0 by (intros n; by rewrite Hfaults).
  destruct (split_entries_succeeds st entries [] ∅) as (R & W & Hsplit);
    [intros; by apply encode_succeeds|].
  by destruct (set_bulk_run _ _ _ _ _ _ Hguard Hhost0 Hsplit) as (s1 & -> & _).
Qed.

(** C4.  After the guard, the bulk [set] makes at most a batched
    removal followed by at most a batched write, and nothing else.  The
    removal, when made, names exactly the actual keys of the entries that
    hold [undefined], of which there is at least one.  The write, when
    made, is of a non-empty object: each of its properties is the actual
    key of an entry that does not hold [undefined], with that entry's
    value, encrypted for an encrypted store; no property holds [undefined];
    and every such entry has its property.  When the call resolves, the
    removal was made if some entry holds [undefined], and the write was
    made if some entry does not.  And the call does resolve, with exactly
    these calls made, on a host that rejects nothing when the collaborator
    encrypts every value (which an unencrypted store does not need). *)
Theorem bulk_set_removes_then_writes st entries s :
  let s0 := (ensureInitialized st s).2 in
  let r := set st (AObject entries) undefined s in
  ∃ removal write,
    trace r.2 = trace s0 ++ removal ++ write ∧
    (removal = [] ∨
     sentinel_keys st entries ≠ [] ∧
     removal = [HRemove (area st) (sentinel_keys st entries)]) ∧
    (write = [] ∨
     ∃ items, write = [HSet (area st) items] ∧ items ≠ ∅ ∧
       (∀ ak c, items !! ak = Some c →
          is_undefined c = false ∧
          ∃ k v, (k, v) ∈ entries ∧ is_undefined v = false ∧
                 ak = actualKey (storeId st) k ∧
                 encode (isEncrypted st) v = Ok c) ∧
       (∀ k v, (k, v) ∈ entries → is_undefined v = false →
          is_Some (items !! actualKey (storeId st) k))) ∧
    (r.1 = Ok tt →
       (sentinel_keys st entries ≠ [] → removal ≠ []) ∧
       ((∃ k v, (k, v) ∈ entries ∧ is_undefined v = false) → write ≠ [])) ∧
    (reliable s →
     (isEncrypted st = true → ∀ u, is_ok (encrypt u) = true) →
     r.1 = Ok tt ∧
     (sentinel_keys st entries ≠ [] →
        removal = [HRemove (area st) (sentinel_keys st entries)]) ∧
     ((∃ k v, (k, v) ∈ entries ∧ is_undefined v = false) →
        ∃ items, write = [HSet (area st) items])).
Proof.
  cbn zeta.
  destruct (bulk_set_calls st entries s)
    as (removal & write & Htrace & Hremoval & Hwrite & Hmade).
  exists removal, write.
  split; [exact Htrace|]. split; [exact Hremoval|].
  split; [exact Hwrite|]. split; [exact Hmade|].
  intros Hhost Henc.
  pose proof (bulk_set_resolves st entries s Hhost Henc) as Hok.
  destruct (Hmade Hok) as [Hrm Hwr].
  split; [exact Hok|]. split.
  - intros Hsome. destruct Hremoval as [->|[_ ->]]; [|done].
    by destruct (Hrm Hsome).
  - intros Hsome. destruct Hwrite as [->|(items & -> & _)]; [|by exists items].
    by destruct (Hwr Hsome).
Qed.

End ReadWrite.

(* ===================================================================== *)
(** * The scenario of the spec *)
(* ===================================================================== *)

Section Scenario.
Context `{Security}.

(** Without encryption [all] hands back the object the host returned:
    its properties are actual keys. *)
Lemma all_plain_keys st s m s' k :
  isEncrypted st = false → all st s = (Ok m, s') →
  is_Some (m !! k) → k ∈ actualKeys st.
Proof.
  intros Hplain. unfold all, bind. rewrite Hplain.
  destruct (ensureInitialized st s) as [[[]|e] s0]; [|done].
  unfold host. destruct (faults s0 _); [done|].
  cbn [host_reply]. unfold ret. intros [= <- _]. rewrite lookup_area_read.
  case_decide; [done|]. by intros [? ?].
Qed.

(** The first [get] of the scenario seeds nothing: [initialize] looks the
    defaults up under the actual keys, where the declaration has nothing. *)
Example scenario_first_get :
  (get prefs "theme" (fresh_page None)).1 = Ok undefined ∧
  storage (get prefs "theme" (fresh_page None)).2 = empty_storage.
Proof. by vm_compute. Qed.

(** C1 (the code departs from the claim).  On the scenario of the spec,
    an unencrypted store ["prefs"] with defaults [{theme: "light",
    volume: 50}] on an empty host, after [get("theme")] and
    [set("theme", "dark")], [all()] resolves with
    [{"prefs:theme": "dark"}]: the property is the actual key, and
    [volume] is missing.  It is not [{theme: "dark", volume: 50}]. *)
Theorem scenario_all_keyed_by_actual_keys :
  (scenario (fresh_page None)).1
    = Ok {[ "prefs:theme" := defined (JStr "dark") ]} ∧
  (scenario (fresh_page None)).1
    ≠ Ok {[ "theme" := defined (JStr "dark"); "volume" := defined (JNum 50) ]}.
Proof.
  assert ((scenario (fresh_page None)).1
            = Ok {[ "prefs:theme" := defined (JStr "dark") ]}) as Hrun
    by by vm_compute.
  split; [done|]. rewrite Hrun. intros Heq.
  pose proof (f_equal (λ r : result (gmap string value),
                         match r with Ok m => m !! "theme" | Err _ => None end) Heq)
    as Htheme.
  by vm_compute in Htheme.
Qed.

End Scenario.

(* ===================================================================== *)
(** * The theorems at concrete inputs *)
(* ===================================================================== *)

Section Instances.
#[local] Existing Instance toy_security.

(** Constructing the encrypted store: refused on a page without the
    secret, before the host has seen a call; granted on a page with it. *)
Example vault_refused :
  createLocalStore "prefs" prefs_defaults encrypted_options (fresh_page None)
    = (Err MISSING_PASSWORD_ERROR, fresh_page None).
Proof. reflexivity. Qed.

Example vault_constructed :
  createLocalStore "prefs" prefs_defaults encrypted_options (fresh_page (Some "secret"))
    = (Ok vault, fresh_page (Some "secret")).
Proof. reflexivity. Qed.

(** The spec's bulk example on the scenario's store, already initialized:
    [set({theme: "dark", volume: undefined})] removes [prefs:volume], then
    writes [prefs:theme]. *)
Example bulk_set_example :
  let s := with_hasInitialized true (fresh_page None) in
  let r := set prefs (AObject [("theme", defined (JStr "dark")); ("volume", undefined)])
             undefined s in
  r.1 = Ok tt ∧
  trace r.2 = [HRemove local ["prefs:volume"];
               HSet local {[ "prefs:theme" := defined (JStr "dark") ]}].
Proof. by vm_compute. Qed.

(** An event for [prefs:theme] in [local] reaches the callback while the
    handle is registered, also after [unsubscribe] was given the callback
    itself, and no longer once it was given the handle. *)
Example delivery_example :
  let change := {| oldValue := undefined; newValue := defined (JStr "dark") |} in
  let changes : gmap string DataChange := {[ "prefs:theme" := change ]} in
  let r := subscribe prefs "theme" 7 (fresh_page None) in
  delivered (dispatch changes "local" r.2) = [(7, change)] ∧
  delivered (dispatch changes "local" (unsubscribe (UserFn 7) r.2).2) = [(7, change)] ∧
  delivered (dispatch changes "local" (unsubscribe (SubFn 0 prefs "theme" 7) r.2).2) = [].
Proof. by vm_compute. Qed.

(** The first pass on the encrypted store writes a ciphertext under each
    actual key. *)
Example vault_first_pass :
  let r := initialize vault (fresh_page (Some "secret")) in
  r.1 = Ok tt ∧
  cs_local (storage r.2)
    = {[ "prefs:theme" := JStr "?"; "prefs:volume" := JStr "?" ]}.
Proof. by vm_compute. Qed.

(** On the encrypted store [all] adds the decrypted values under the
    logical keys to the object the host returned, which keeps its actual
    keys. *)
Example vault_all_example :
  let s := fresh_page (Some "secret") in
  let r := (let* _ := set vault (AKey "theme") (defined (JStr "dark")) in all vault) s in
  r.1 = Ok {[ "prefs:theme" := defined (JStr "s:dark");
              "prefs:volume" := defined (JStr "?");
              "theme" := defined (JStr "dark");
              "volume" := undefined ]}.
Proof. by vm_compute. Qed.

Lemma initialize_seeds_missing_keys_once_witness :
  (initialize vault (fresh_page (Some "secret"))).1 = Ok tt ∧
  storage (initialize vault (initialize vault (fresh_page (Some "secret"))).2).2
    = storage (initialize vault (fresh_page (Some "secret"))).2.
Proof.
  pose proof (initialize_seeds_missing_keys_once vault (fresh_page (Some "secret")))
    as Hpass.
  cbn zeta in Hpass. destruct Hpass as (_ & _ & Hsecond).
  split; [reflexivity|]. apply Hsecond. reflexivity.
Defined.

Lemma set_undefined_removes_key_witness :
  reliable (fresh_page (Some "secret")) ∧
  (set vault (AKey "theme") undefined (fresh_page (Some "secret"))).1 = Ok tt ∧
  (get vault "theme"
     (set vault (AKey "theme") undefined (fresh_page (Some "secret"))).2).1
    = Ok undefined.
Proof.
  assert (reliable (fresh_page (Some "secret"))) as Hhost by (intros n; reflexivity).
  assert (isEncrypted vault = true →
          (∀ u, is_ok (encrypt u) = true) ∧ decrypt undefined = Ok undefined) as Hsec.
  { intros _. split; [|reflexivity]. intros [|[]]; reflexivity. }
  pose proof (set_undefined_removes_key vault "theme" _ Hhost Hsec) as Hrun.
  cbn zeta in Hrun. destruct Hrun as (Hset & _ & _ & _ & Hget & _).
  split; [exact Hhost|]. split; [exact Hset|exact Hget].
Defined.

Lemma listener_ignores_foreign_events_witness :
  subscribe prefs "theme" 7 (fresh_page None)
    = (Ok (SubFn 0 prefs "theme" 7),
       with_listeners [SubFn 0 prefs "theme" 7] 1 (fresh_page None)) ∧
  "sync" ≠ area_name (area prefs) ∧
  call_listener (SubFn 0 prefs "theme" 7)
    {[ "prefs:theme" := {| oldValue := undefined; newValue := defined (JStr "dark") |} ]}
    "sync" (fresh_page None)
    = (Ok tt, fresh_page None).
Proof.
  assert ("sync" ≠ area_name (area prefs)) as Harea by discriminate.
  split; [reflexivity|]. split; [exact Harea|].
  apply (listener_ignores_foreign_events prefs "theme" 7 (fresh_page None)
           (SubFn 0 prefs "theme" 7) _ _ "sync" (fresh_page None) eq_refl).
  left. exact Harea.
Defined.

Lemma store_calls_confined_witness :
  createStore "prefs" prefs_defaults local None (fresh_page None)
    = (Ok prefs, with_hasInitialized false (fresh_page None)) ∧
  "theme" ∈ keys prefs ∧
  confined prefs (initialize prefs) ∧
  confined prefs (get prefs "theme") ∧
  confined prefs (set prefs (AKey "theme") (defined (JStr "dark"))) ∧
  confined prefs
    (set prefs (AObject [("theme", defined (JStr "dark")); ("volume", undefined)])
       undefined) ∧
  confined prefs (all prefs).
Proof.
  assert ("theme" ∈ keys prefs) as Hkey by (by left).
  split; [reflexivity|]. split; [exact Hkey|].
  apply (store_calls_confined "prefs" prefs_defaults local None (fresh_page None)
           prefs _ "theme" _ _ eq_refl Hkey).
  intros k v Hin. apply elem_of_cons in Hin as [[= -> _]|Hin]; [by left|].
  apply list_elem_of_singleton in Hin as [= -> _]. right. by left.
Defined.

Lemma encrypted_set_then_get_witness :
  isEncrypted vault = true ∧
  reliable (fresh_page (Some "secret")) ∧
  (set vault (AKey "theme") (defined (JStr "dark")) (fresh_page (Some "secret"))).1
    = Ok tt ∧
  (get vault "theme"
     (set vault (AKey "theme") (defined (JStr "dark")) (fresh_page (Some "secret"))).2).1
    = Ok (defined (JStr "dark")).
Proof.
  assert (reliable (fresh_page (Some "secret"))) as Hhost by (intros n; reflexivity).
  split; [reflexivity|]. split; [exact Hhost|].
  apply (encrypted_set_then_get vault "theme" (defined (JStr "dark")) _ eq_refl Hhost).
  - intros [|[]]; reflexivity.
  - intros c [= <-]. reflexivity.
  - reflexivity.
Defined.


End Instances.

(* ===================================================================== *)
(** * What the methods leave alone *)
(* ===================================================================== *)

Section Steps.
Context {A B : Type} (R : State → State → Prop).
Context (R_refl : ∀ s, R s s) (R_trans : ∀ s1 s2 s3, R s1 s2 → R s2 s3 → R s1 s3).

Lemma steps_ret (a : A) : steps R (ret a).
Proof. intros s. apply R_refl. Qed.

Lemma steps_lift (r : result A) : steps R (lift r).
Proof. intros s. apply R_refl. Qed.

Lemma steps_bind (m : M A) (k : A → M B) :
  steps R m → (∀ a, steps R (k a)) → steps R (bind m k).
Proof.
  intros Hm Hk s. unfold bind. specialize (Hm s).
  destruct (m s) as [[a|e] s1]; [|done].
  eapply R_trans; [exact Hm|apply Hk].
Qed.

End Steps.

Lemma steps_host (R : State → State → Prop) c :
  (∀ s cs t, (cs = storage s ∨ cs = host_effect c (storage s)) → R s (with_host cs t s)) →
  steps R (host c).
Proof.
  intros HR s. unfold host.
  destruct (faults s _); cbn [snd]; apply HR; auto.
Qed.

Section Frames.
Context `{Security}.

Lemma other_areas_kept_refl a s : other_areas_kept a s s.
Proof. by intros b _. Qed.

Lemma other_areas_kept_trans a s1 s2 s3 :
  other_areas_kept a s1 s2 → other_areas_kept a s2 s3 → other_areas_kept a s1 s3.
Proof. intros H12 H23 b Hb. by rewrite H23, H12. Qed.

Lemma host_other_areas c : steps (other_areas_kept (call_area c)) (host c).
Proof.
  apply steps_host. intros s cs t [->| ->] b Hb; cbn [storage with_host]; [done|].
  destruct c; cbn [host_effect call_area] in *; by rewrite ?area_of_with_area_ne.
Qed.

Lemma flag_kept_refl s : flag_kept s s.
Proof. by intros ?. Qed.

Lemma flag_kept_trans s1 s2 s3 : flag_kept s1 s2 → flag_kept s2 s3 → flag_kept s1 s3.
Proof. unfold flag_kept. auto. Qed.

Lemma host_flag c : steps flag_kept (host c).
Proof. apply steps_host. intros s cs t _ Hs. exact Hs. Qed.

Lemma subscriptions_kept_refl s : subscriptions_kept s s.
Proof. done. Qed.

Lemma subscriptions_kept_trans s1 s2 s3 :
  subscriptions_kept s1 s2 → subscriptions_kept s2 s3 → subscriptions_kept s1 s3.
Proof. intros (?&?&?) (?&?&?). repeat split; congruence. Qed.

Lemma host_subscriptions c : steps subscriptions_kept (host c).
Proof. apply steps_host. intros s cs t _. by repeat split. Qed.

(** The four methods are built from host calls on the store's area, pure
    steps and the raising of the flag: whatever these keep, the methods
    keep. *)
Lemma methods_step (R : State → State → Prop) st :
  (∀ s, R s s) → (∀ s1 s2 s3, R s1 s2 → R s2 s3 → R s1 s3) →
  (∀ c, call_area c = area st → steps R (host c)) →
  (∀ s, R s (with_hasInitialized true s)) →
  steps R (initialize st) ∧
  (∀ key, steps R (get st key)) ∧
  (∀ key value, steps R (set st key value)) ∧
  steps R (all st).
Proof.
  intros Hrefl Htrans Hhost Hflag.
  assert (∀ c, call_area c = area st →
            steps R (let* _ := host c in ret tt)) as Hcall.
  { intros c Hc. apply (steps_bind R Htrans); [by apply Hhost|].
    intros _. by apply steps_ret. }
  assert (steps R (initialize st)) as Hinit.
  { unfold initialize. apply (steps_bind R Htrans); [by apply Hhost|]. intros data.
    apply (steps_bind R Htrans).
    - destruct (List.filter _ _) as [|key0 missing]; [by apply steps_ret|].
      intros s. unfold bind at 1, lift. destruct (seed _ _ _) as [d|e]; [|apply Hrefl].
      by apply Hcall.
    - intros _ s. apply Hflag. }
  assert (steps R (ensureInitialized st)) as Hguard.
  { intros s. unfold ensureInitialized.
    destruct (hasInitialized s); [apply Hrefl|apply Hinit]. }
  split; [done|]. split; [|split].
  - intros key. unfold get. apply (steps_bind R Htrans); [done|]. intros _.
    apply (steps_bind R Htrans); [by apply Hhost|]. intros items. by apply steps_lift.
  - intros key value. unfold set. apply (steps_bind R Htrans); [done|]. intros _.
    assert (steps R
              (let actualKey := actualKey (storeId st) (key_text key) in
               if is_undefined value
               then let* _ := host (HRemove (area st) [actualKey]) in ret tt
               else
                 let* c := lift (encode (isEncrypted st) value) in
                 let* _ := host (HSet (area st) {[ actualKey := c ]}) in
                 ret tt)) as Hsingle.
    { cbn zeta. destruct (is_undefined value); [by apply Hcall|].
      intros s. unfold bind at 1, lift. destruct (encode _ _) as [c|e]; [|apply Hrefl].
      by apply Hcall. }
    destruct key as [k|entries]; [exact Hsingle|].
    destruct (is_undefined value); [|exact Hsingle].
    intros s. unfold bind at 1, lift.
    destruct (split_entries _ _ _ _) as [[R0 W]|e]; [|apply Hrefl].
    cbn [fst snd]. apply (steps_bind R Htrans).
    + destruct R0 as [|r0 R0']; [by apply steps_ret|by apply Hcall].
    + intros _. case_bool_decide; [by apply steps_ret|by apply Hcall].
  - unfold all. apply (steps_bind R Htrans); [done|]. intros _.
    apply (steps_bind R Htrans); [by apply Hhost|]. intros fullStore.
    destruct (isEncrypted st); [|by apply steps_ret].
    intros s. unfold bind, lift. destruct (decrypt_all _ _ _); apply Hrefl.
Qed.

End Frames.

Section FrameTheorems.
Context `{Security}.

(** X1.  No method of a store changes what another storage area holds:
    [initialize], [get], both forms of [set] and [all] leave every area
    other than the store's own as it was, whatever the arguments and
    whichever calls the host rejects. *)
Theorem methods_keep_other_areas st :
  steps (other_areas_kept (area st)) (initialize st) ∧
  (∀ key, steps (other_areas_kept (area st)) (get st key)) ∧
  (∀ key value, steps (other_areas_kept (area st)) (set st key value)) ∧
  steps (other_areas_kept (area st)) (all st).
Proof.
  apply methods_step.
  - apply other_areas_kept_refl.
  - apply other_areas_kept_trans.
  - intros c <-. apply host_other_areas.
  - by intros s b _.
Qed.

(** X2.  The flag never goes back down: from a state where
    [hasInitialized] is true, it is true after [initialize], [get], either
    form of [set], [all], [subscribe] and [unsubscribe], whether they
    resolve or reject. *)
Theorem flag_never_lowered st :
  steps flag_kept (initialize st) ∧
  (∀ key, steps flag_kept (get st key)) ∧
  (∀ key value, steps flag_kept (set st key value)) ∧
  steps flag_kept (all st) ∧
  (∀ key callback, steps flag_kept (subscribe st key callback)) ∧
  (∀ sub, steps flag_kept (unsubscribe sub)).
Proof.
  pose proof (methods_step flag_kept st flag_kept_refl flag_kept_trans
                (λ c _, host_flag c) (λ s _, eq_refl)) as (Hi & Hg & Hs & Ha).
  repeat split; try done.
  - intros key callback s Hup. exact Hup.
  - intros sub s Hup. exact Hup.
Qed.

Lemma held_kept_refl s : held_kept s s.
Proof. by intros a k j. Qed.

Lemma held_kept_trans s1 s2 s3 : held_kept s1 s2 → held_kept s2 s3 → held_kept s1 s3.
Proof. unfold held_kept. auto. Qed.

Lemma initialize_held_kept st : steps held_kept (initialize st).
Proof.
  intros s a k j Hk.
  destruct (initialize_storage st s) as [->|(d & Hd & _ & ->)]; [done|].
  by apply seeding_keeps_values.
Qed.

Lemma ensureInitialized_held_kept st : steps held_kept (ensureInitialized st).
Proof.
  intros s. unfold ensureInitialized.
  destruct (hasInitialized s); [apply held_kept_refl|apply initialize_held_kept].
Qed.

Lemma read_held_kept a ks : steps held_kept (host (HGet a ks)).
Proof. apply steps_host. by intros s cs t [->| ->] b k j. Qed.

(** X4.  Reading never loses data.  From any state, [get] and [all]
    leave every value the host holds, in every area, as it is (the lazy
    initialization only adds keys).  On an initialized store each of them
    makes exactly one host call, a read, and leaves the storage
    unchanged, also when the host rejects the call. *)
Theorem reads_keep_the_storage st key :
  steps held_kept (get st key) ∧
  steps held_kept (all st) ∧
  (∀ s, hasInitialized s = true →
     storage (get st key s).2 = storage s ∧
     trace (get st key s).2
       = trace s ++ [HGet (area st) [actualKey (storeId st) key]] ∧
     storage (all st s).2 = storage s ∧
     trace (all st s).2 = trace s ++ [HGet (area st) (actualKeys st)]).
Proof.
  split; [|split].
  - unfold get. apply (steps_bind _ held_kept_trans);
      [apply ensureInitialized_held_kept|]. intros _.
    apply (steps_bind _ held_kept_trans); [apply read_held_kept|].
    intros items. apply steps_lift, held_kept_refl.
  - unfold all. apply (steps_bind _ held_kept_trans);
      [apply ensureInitialized_held_kept|]. intros _.
    apply (steps_bind _ held_kept_trans); [apply read_held_kept|].
    intros fullStore. destruct (isEncrypted st);
      [|apply steps_ret, held_kept_refl].
    intros s. unfold bind, lift. destruct (decrypt_all _ _ _); apply held_kept_refl.
  - intros s Hflag. unfold get, all, bind, ensureInitialized, host, lift.
    rewrite Hflag. destruct (faults s _); cbn [fst snd host_effect]; [done|].
    destruct (isEncrypted st); [|done].
    by destruct (decrypt_all _ _ _).
Qed.

End FrameTheorems.

(* ===================================================================== *)
(** * Actual keys *)
(* ===================================================================== *)

Section ActualKeys.

Lemma append_nil_l (s : string) : "" +:+ s = s.
Proof. reflexivity. Qed.

Lemma append_cons (c : ascii) (p s : string) : String c p +:+ s = String c (p +:+ s).
Proof. reflexivity. Qed.

Lemma append_assoc_L (a b c : string) : (a +:+ b) +:+ c = a +:+ (b +:+ c).
Proof.
  induction a as [|x a IH]; [reflexivity|].
  rewrite !append_cons. by rewrite IH.
Qed.

Lemma actualKey_inj storeId k k' : actualKey storeId k = actualKey storeId k' → k = k'.
Proof.
  unfold actualKey. intros Heq%(inj (String.append storeId)).
  rewrite !append_cons, !append_nil_l in Heq. by injection Heq.
Qed.

(** X5.  The prefix keeps stores apart when their identifiers contain no
    colon: two actual keys built from colon-free store identifiers are
    equal only if both the identifiers and the logical keys are equal. *)
Theorem actualKey_separates_colon_free_stores storeId1 storeId2 k1 k2 :
  has_colon storeId1 = false →
  has_colon storeId2 = false →
  actualKey storeId1 k1 = actualKey storeId2 k2 →
  storeId1 = storeId2 ∧ k1 = k2.
Proof.
  unfold actualKey. revert storeId2.
  induction storeId1 as [|c1 id1 IH]; intros [|c2 id2];
    rewrite ?append_cons, ?append_nil_l; cbn [has_colon].
  - intros _ _ [= ->]. done.
  - intros _ Hfree [= <- _]. done.
  - intros Hfree _ [= -> _]. done.
  - intros [_ Hfree1]%orb_false_elim [_ Hfree2]%orb_false_elim [= -> Heq].
    destruct (IH id2 Hfree1 Hfree2 Heq) as [-> ->]. done.
Qed.

(** X6.  A colon in a store identifier or in a logical key lets two
    stores meet on one actual key: key [a:b] of store [id] and key [b] of
    store [id:a] are the same actual key. *)
Theorem actualKey_collides_across_colons storeId a b :
  actualKey storeId (a +:+ ":" +:+ b) = actualKey (storeId +:+ ":" +:+ a) b.
Proof. unfold actualKey. by rewrite !append_assoc_L. Qed.

End ActualKeys.

(* ===================================================================== *)
(** * Writing, then reading *)
(* ===================================================================== *)

Section WriteRead.
Context `{Security}.

Lemma get_after_guard st key s s0 :
  ensureInitialized st s = (Ok tt, s0) → hasInitialized s0 = true →
  get st key s = get st key s0.
Proof.
  intros Hguard Hflag. unfold get, bind. rewrite Hguard.
  unfold ensureInitialized. by rewrite Hflag.
Qed.

(** X7.  Without encryption, with a host that rejects nothing:
    [set(key, v)] with [v] other than [undefined] resolves, and the
    [get(key)] that follows resolves with [v]. *)
Theorem plain_set_then_get st key v s :
  isEncrypted st = false →
  reliable s →
  is_undefined v = false →
  let r1 := set st (AKey key) v s in
  r1.1 = Ok tt ∧ (get st key r1.2).1 = Ok v.
Proof.
  intros Hplain Hhost Hv. cbn zeta.
  destruct (ensureInitialized_resolves st s Hhost) as (s0 & Hguard & Hflag & Hfaults);
    [by rewrite Hplain|].
  assert (reliable s0) as Hhost0 by (intros n; by rewrite Hfaults).
  rewrite (set_key_run _ _ _ _ _ Hguard) by done. cbn zeta.
  rewrite Hv, Hplain. cbn [encode fst snd]. split; [done|].
  rewrite get_run; [|exact Hflag|apply Hhost0].
  cbn zeta. cbn [fst storage with_host host_effect].
  rewrite area_of_with_area, lookup_area_write, lookup_singleton_eq.
  rewrite Hplain. by destruct v.
Qed.

(** X8.  [set] on one key does not disturb another: with a host that
    rejects nothing (and a collaborator that encrypts every value, for an
    encrypted store), [get(k')] after [set(k, v)] resolves with what
    [get(k')] resolves with in its place, for every [k'] other than [k]
    and every [v], [undefined] included. *)
Theorem set_leaves_other_keys st k k' v s :
  reliable s →
  (isEncrypted st = true → ∀ u, is_ok (encrypt u) = true) →
  k ≠ k' →
  (set st (AKey k) v s).1 = Ok tt ∧
  (get st k' (set st (AKey k) v s).2).1 = (get st k' s).1.
Proof.
  intros Hhost Henc Hkk'.
  destruct (ensureInitialized_resolves st s Hhost Henc) as (s0 & Hguard & Hflag & Hfaults).
  assert (reliable s0) as Hhost0 by (intros n; by rewrite Hfaults).
  assert (actualKey (storeId st) k ≠ actualKey (storeId st) k') as Hak
    by (by intros ?%actualKey_inj).
  rewrite (get_after_guard _ _ _ _ Hguard Hflag).
  rewrite (get_run _ _ s0) by done.
  rewrite (set_key_run _ _ _ _ _ Hguard) by done. cbn zeta.
  destruct (is_undefined v).
  - cbn [fst snd]. split; [done|].
    rewrite get_run; [|exact Hflag|apply Hhost0].
    cbn zeta. cbn [fst storage with_host host_effect].
    rewrite area_of_with_area, lookup_area_remove.
    rewrite decide_False; [done|]. intros Heq%list_elem_of_singleton. congruence.
  - pose proof (encode_succeeds (isEncrypted st) v Henc) as Hc.
    destruct (encode (isEncrypted st) v) as [c|e]; [|done].
    cbn [fst snd]. split; [done|].
    rewrite get_run; [|exact Hflag|apply Hhost0].
    cbn zeta. cbn [fst storage with_host host_effect].
    rewrite area_of_with_area, lookup_area_write.
    by rewrite lookup_singleton_ne.
Qed.

(** X9.  The two forms of [set] agree on one entry: [set({k: v})] and
    [set(k, v)] return the same outcome and leave the same state, for
    every value [v] ([undefined] included), from every state and whichever
    calls the host rejects. *)
Theorem bulk_set_of_one_entry st k v s :
  set st (AObject [(k, v)]) undefined s = set st (AKey k) v s.
Proof.
  unfold set, bind.
  destruct (ensureInitialized st s) as [[[]|e] s0]; [|done].
  cbn [is_undefined key_text split_entries app lift].
  destruct (is_undefined v).
  - cbn [fst snd]. rewrite bool_decide_eq_true_2 by done.
    unfold ret. by destruct (host _ s0) as [[?|?] ?].
  - destruct (encode (isEncrypted st) v) as [c|e]; [|done].
    cbn [fst snd ret]. rewrite bool_decide_eq_false_2.
    + by rewrite insert_empty.
    + intros Hempty. apply (f_equal (λ m : gmap string value,
                                       m !! actualKey (storeId st) k)) in Hempty.
      by rewrite lookup_insert_eq, lookup_empty in Hempty.
Qed.

Lemma NoDup_fst_same (entries : list (string * value)) k v v' :
  NoDup entries.*1 → (k, v) ∈ entries → (k, v') ∈ entries → v = v'.
Proof.
  induction entries as [|[k0 v0] rest IH]; [by intros _ ?%elem_of_nil|].
  cbn [fmap list_fmap fst]. intros [Hfresh Hrest]%NoDup_cons.
  intros [Heq|Hin]%elem_of_cons [Heq'|Hin']%elem_of_cons; simplify_eq.
  - done.
  - destruct Hfresh. apply list_elem_of_fmap. by exists (k0, v').
  - destruct Hfresh. apply list_elem_of_fmap. by exists (k0, v).
  - by apply IH.
Qed.

(** X10.  Without encryption, with a host that rejects nothing, the bulk
    [set] of an object resolves, and afterwards [get(k)] resolves with
    the object's value for [k], for each of its properties: the value
    written, or [undefined] for a property that held [undefined]. *)
Theorem bulk_set_then_get st entries k v s :
  isEncrypted st = false →
  reliable s →
  NoDup entries.*1 →
  (k, v) ∈ entries →
  let r := set st (AObject entries) undefined s in
  r.1 = Ok tt ∧ (get st k r.2).1 = Ok v.
Proof.
  intros Hplain Hhost Hnodup Hin. cbn zeta.
  destruct (ensureInitialized_resolves st s Hhost) as (s0 & Hguard & Hflag & Hfaults);
    [by rewrite Hplain|].
  assert (reliable s0) as Hhost0 by (intros n; by rewrite Hfaults).
  destruct (split_entries_succeeds st entries [] ∅) as (R & W & Hsplit);
    [intros; by rewrite Hplain|].
  destruct (set_bulk_run _ _ _ _ _ _ Hguard Hhost0 Hsplit)
    as (s1 & -> & Hflag1 & Hfaults1 & Hstorage).
  cbn [fst snd]. split; [done|].
  rewrite get_run; [|congruence|rewrite Hfaults1; apply Hhost0].
  cbn zeta. cbn [fst]. rewrite Hstorage, lookup_area_write, Hplain. cbn [decode].
  apply split_entries_spec in Hsplit as (HR & Hfrom & _ & Hall).
  cbn [app] in HR. destruct v as [|j].
  - (* the property held undefined: its key was removed and not written *)
    assert (actualKey (storeId st) k ∈ R) as HinR.
    { rewrite HR. apply list_elem_of_fmap. exists (k, undefined). split; [done|].
      apply list_elem_of_In, filter_In. split; [by apply list_elem_of_In|done]. }
    assert (∀ j', W !! actualKey (storeId st) k ≠ Some (defined j')) as HnW.
    { intros j' [HW|(k' & v' & Hin' & Hv' & Hk' & Hc)]%Hfrom;
        [by rewrite lookup_empty in HW|].
      apply actualKey_inj in Hk' as <-.
      by rewrite (NoDup_fst_same _ _ _ _ Hnodup Hin' Hin) in Hv'. }
    destruct (W !! actualKey (storeId st) k) as [[|j']|];
      [|by destruct (HnW j')|]; by rewrite lookup_area_remove, decide_True.
  - (* the property held data: it was written *)
    destruct (Hall k j Hin eq_refl) as [c HW]. rewrite HW.
    apply Hfrom in HW as [HW|(k' & v' & Hin' & Hv' & Hk' & Hc)];
      [by rewrite lookup_empty in HW|].
    apply actualKey_inj in Hk' as <-.
    rewrite (NoDup_fst_same _ _ _ _ Hnodup Hin' Hin) in Hc.
    rewrite Hplain in Hc. cbn [encode] in Hc. by injection Hc as <-.
Qed.

End WriteRead.

(* ===================================================================== *)
(** * Seeding and the full read *)
(* ===================================================================== *)

Section FullRead.
Context `{Security}.

Lemma ensureInitialized_flag st s s0 :
  ensureInitialized st s = (Ok tt, s0) → hasInitialized s0 = true.
Proof.
  unfold ensureInitialized. destruct (hasInitialized s) eqn:Hflag.
  - by intros [= <-].
  - apply initialize_sets_flag.
Qed.

Lemma plain_seed_not_storable st ks d k j :
  isEncrypted st = false →
  (∀ k, k ∈ ks → entry (defaults st) k = undefined) →
  seed st ks ∅ = Ok d → d !! k = Some (defined j) → False.
Proof.
  intros Hplain Hnone Hd Hk.
  assert (k ∈ ks) as Hin by (apply (seed_dom _ _ _ _ Hd); by eexists).
  destruct (seed_lookup _ _ _ _ _ Hd Hin) as (v & Hv & Hk').
  rewrite Hplain, (Hnone k Hin) in Hv. cbn [encode] in Hv. congruence.
Qed.

Lemma plain_initialize_storage st s :
  isEncrypted st = false →
  (∀ k, k ∈ actualKeys st → entry (defaults st) k = undefined) →
  storage (initialize st s).2 = storage s.
Proof.
  intros Hplain Hnone.
  destruct (initialize_storage st s) as [->|(d & Hd & _ & ->)]; [done|].
  apply write_nothing_storable. intros k j.
  apply (plain_seed_not_storable st (absent_keys st (storage s)) d k j Hplain); [|done].
  intros k' [Hk' _]%elem_of_absent_keys. by apply Hnone.
Qed.

(** X11.  The lazy initialization of an unencrypted store persists no
    default.  [initialize] looks each default up in the declaration under
    the actual key; when the declaration has no property named like an
    actual key, the values it writes are all [undefined], and the host
    storage after [initialize] is what it was before.  With a host that
    rejects nothing, [get(key)] then resolves with what the host already
    held under [storeId:key], and with [undefined] when it held nothing,
    whatever default was declared. *)
Theorem plain_initialize_stores_no_default st s :
  isEncrypted st = false →
  (∀ k, k ∈ actualKeys st → entry (defaults st) k = undefined) →
  storage (initialize st s).2 = storage s ∧
  (reliable s →
   ∀ key, (get st key s).1 = Ok (held (area st) (actualKey (storeId st) key) s)).
Proof.
  intros Hplain Hnone. split; [by apply plain_initialize_storage|].
  intros Hhost key.
  destruct (ensureInitialized_resolves st s Hhost) as (s0 & Hguard & Hflag & Hfaults);
    [by rewrite Hplain|].
  assert (storage s0 = storage s) as Hsame.
  { revert Hguard. unfold ensureInitialized. destruct (hasInitialized s).
    - by intros [= <-].
    - intros Hrun. rewrite <- (plain_initialize_storage st s Hplain Hnone).
      by rewrite Hrun. }
  rewrite (get_after_guard _ _ _ _ Hguard Hflag).
  rewrite get_run; [|done|by rewrite Hfaults].
  cbn zeta. cbn [fst]. unfold held. rewrite Hsame, Hplain. done.
Qed.

Lemma decrypt_all_spec st fs ks vs :
  decrypt_all st fs ks = Ok vs →
  vs.*1 = ks ∧
  ∀ key v, (key, v) ∈ vs → decrypt (prop fs (actualKey (storeId st) key)) = Ok v.
Proof.
  revert vs. induction ks as [|key rest IH]; intros vs; cbn [decrypt_all].
  - intros [= <-]. split; [done|]. by intros ?? ?%elem_of_nil.
  - destruct (decrypt _) as [v|e] eqn:Hv; [|done].
    destruct (decrypt_all st fs rest) as [vs'|e]; [|done].
    intros [= <-]. destruct (IH vs' eq_refl) as [Hfst Hall].
    split; [cbn; by rewrite Hfst|].
    intros key' v' [[= -> ->]|Hin]%elem_of_cons; [done|by apply Hall].
Qed.

Lemma assign_all_lookup_notin (o : gmap string value) vs key :
  key ∉ vs.*1 → assign_all o vs !! key = o !! key.
Proof.
  unfold assign_all. revert o.
  induction vs as [|[k0 v0] vs IH]; intros o Hnotin; [done|].
  cbn [foldl fst snd]. cbn in Hnotin. apply not_elem_of_cons in Hnotin as [Hne Hnotin].
  rewrite IH by done. by rewrite lookup_insert_ne.
Qed.

Lemma assign_all_lookup (o : gmap string value) vs key v :
  (∀ v', (key, v') ∈ vs → v' = v) → key ∈ vs.*1 →
  assign_all o vs !! key = Some v.
Proof.
  revert o. induction vs as [|[k0 v0] vs IH]; intros o Hsame Hin;
    [by apply elem_of_nil in Hin|].
  assert (∀ v', (key, v') ∈ vs → v' = v) as Hsame'
    by (intros v' Hv'; apply Hsame; by right).
  destruct (decide (key ∈ vs.*1)) as [Hrest|Hrest].
  - unfold assign_all. cbn [foldl]. by apply IH.
  - cbn in Hin. apply elem_of_cons in Hin as [->|?]; [|done].
    unfold assign_all. cbn [foldl fst snd].
    fold (assign_all (<[k0:=v0]> o) vs).
    rewrite assign_all_lookup_notin by done. rewrite lookup_insert_eq.
    f_equal. apply Hsame. by left.
Qed.

(** What a resolved [all] went through. *)
Lemma all_resolved st s m s' :
  all st s = (Ok m, s') →
  ∃ s0, ensureInitialized st s = (Ok tt, s0) ∧
        hasInitialized s' = true ∧
        storage s' = storage s0 ∧
        let fullStore := area_read (actualKeys st) (area_of (area st) (storage s')) in
        if isEncrypted st
        then ∃ vs, decrypt_all st fullStore (keys st) = Ok vs ∧
                   m = assign_all fullStore vs
        else m = fullStore.
Proof.
  unfold all, bind.
  destruct (ensureInitialized st s) as [[[]|e] s0] eqn:Hguard; [|done].
  unfold host. destruct (faults s0 _); [done|].
  cbn [host_reply host_effect]. unfold lift, ret.
  pose proof (ensureInitialized_flag _ _ _ Hguard) as Hflag.
  destruct (isEncrypted st).
  - destruct (decrypt_all _ _ _) as [vs|e] eqn:Hvs; [|done].
    intros [= <- <-]. exists s0. repeat split; [done|]. by exists vs.
  - intros [= <- <-]. by exists s0.
Qed.

Lemma assign_decrypted st fs ks vs key :
  decrypt_all st fs ks = Ok vs → key ∈ ks →
  ∃ v, decrypt (prop fs (actualKey (storeId st) key)) = Ok v ∧
       assign_all fs vs !! key = Some v.
Proof.
  intros Hvs Hkey.
  destruct (decrypt_all_spec _ _ _ _ Hvs) as [Hfst Hdec].
  assert (key ∈ vs.*1) as Hin by by rewrite Hfst.
  pose proof Hin as ([key' v] & Hk & Hin')%list_elem_of_fmap. cbn in Hk. subst key'.
  exists v. split; [by apply Hdec|].
  apply assign_all_lookup; [|done].
  intros v' Hv'. apply Hdec in Hv'. apply Hdec in Hin'. congruence.
Qed.

Lemma declared_actual_key st key :
  well_keyed st → key ∈ keys st → actualKey (storeId st) key ∈ actualKeys st.
Proof. intros -> Hkey. apply list_elem_of_fmap. by exists key. Qed.

(** X12.  On an encrypted store whose actual keys are the prefixed
    declared keys, when [all()] resolves its result holds, under every
    declared logical key, the decryption of what the host holds under
    that key's own actual key: no key receives another key's value. *)
Theorem all_decrypts_each_key st s m s' key :
  well_keyed st →
  isEncrypted st = true →
  all st s = (Ok m, s') →
  key ∈ keys st →
  ∃ v, decrypt (held (area st) (actualKey (storeId st) key) s') = Ok v ∧
       m !! key = Some v.
Proof.
  intros Hkeyed Henc Hall Hkey.
  destruct (all_resolved _ _ _ _ Hall) as (s0 & _ & _ & _ & Hm).
  cbn zeta in Hm. rewrite Henc in Hm. destruct Hm as (vs & Hvs & ->).
  destruct (assign_decrypted _ _ _ _ _ Hvs Hkey) as (v & Hv & Hlookup).
  exists v. split; [|done].
  rewrite prop_area_read in Hv by by apply declared_actual_key.
  exact Hv.
Qed.

(** X13.  [get] agrees with [all], under the property [all] files the
    value under: when [all()] resolves with [m] and the host accepts the
    next call, [get(key)] for a declared key resolves with [m[key]] on an
    encrypted store and with [m[storeId:key]] on an unencrypted one. *)
Theorem get_agrees_with_all st s m s' key :
  well_keyed st →
  all st s = (Ok m, s') →
  key ∈ keys st →
  faults s' (length (trace s')) = false →
  (get st key s').1
    = Ok (prop m (if isEncrypted st then key else actualKey (storeId st) key)).
Proof.
  intros Hkeyed Hall Hkey Hnext.
  destruct (all_resolved _ _ _ _ Hall) as (s0 & _ & Hflag & _ & Hm).
  cbn zeta in Hm. rewrite get_run by done. cbn zeta. cbn [fst].
  pose proof (declared_actual_key _ _ Hkeyed Hkey) as Hak.
  destruct (isEncrypted st) eqn:Henc.
  - destruct Hm as (vs & Hvs & ->).
    destruct (assign_decrypted _ _ _ _ _ Hvs Hkey) as (v & Hv & Hlookup).
    unfold prop at 1. rewrite Hlookup. cbn [decode].
    by rewrite prop_area_read in Hv.
  - subst m. by rewrite prop_area_read.
Qed.

End FullRead.

(* ===================================================================== *)
(** * Delivery *)
(* ===================================================================== *)

Section Delivery.
Context `{Security}.

Lemma sub_matching st key callback changes change old new s :
  changes !! actualKey (storeId st) key = Some change →
  decode (isEncrypted st) (oldValue change) = Ok old →
  decode (isEncrypted st) (newValue change) = Ok new →
  sub st key callback changes (area_name (area st)) s
    = (Ok tt,
       with_delivered
         (delivered s ++ [(callback, {| oldValue := old; newValue := new |})]) s).
Proof.
  intros Hchange Hold Hnew. unfold sub.
  rewrite String.eqb_refl, Hchange. cbn [negb].
  destruct (isEncrypted st); cbn [negb decode] in *.
  - unfold bind, lift. by rewrite Hold, Hnew.
  - by injection Hold as <-; injection Hnew as <-.
Qed.

Lemma sub_decryption_rejected st key callback changes change s :
  changes !! actualKey (storeId st) key = Some change →
  is_ok (decode (isEncrypted st) (oldValue change)) = false ∨
  is_ok (decode (isEncrypted st) (newValue change)) = false →
  ∃ e, sub st key callback changes (area_name (area st)) s = (Err e, s).
Proof.
  intros Hchange Hbad. unfold sub.
  rewrite String.eqb_refl, Hchange. cbn [negb].
  destruct (isEncrypted st); cbn [negb decode] in *; [|by destruct Hbad].
  unfold bind, lift.
  destruct (decrypt (oldValue change)) as [old|e]; [|by exists e].
  destruct (decrypt (newValue change)) as [new|e]; [|by exists e].
  by destruct Hbad.
Qed.

(** X14.  The listener [subscribe] registers answers a matching event.
    Called with the store's area name and a change set that holds
    [storeId:key], the handle [subscribe] returned resolves and invokes
    [callback] exactly once and does nothing else: with the change's
    [oldValue] and [newValue] as they are for an unencrypted store, and
    with both decrypted for an encrypted one.  When a decryption
    rejects, the handle rejects and [callback] is not invoked: the state
    is left as it was. *)
Theorem listener_answers_matching_event st key callback s h s1
    (changes : gmap string DataChange) (change : DataChange) (s' : State) :
  subscribe st key callback s = (Ok h, s1) →
  changes !! actualKey (storeId st) key = Some change →
  (∀ old new,
     decode (isEncrypted st) (oldValue change) = Ok old →
     decode (isEncrypted st) (newValue change) = Ok new →
     call_listener h changes (area_name (area st)) s'
       = (Ok tt,
          with_delivered
            (delivered s' ++ [(callback, {| oldValue := old; newValue := new |})])
            s')) ∧
  (is_ok (decode (isEncrypted st) (oldValue change)) = false ∨
   is_ok (decode (isEncrypted st) (newValue change)) = false →
   ∃ e, call_listener h changes (area_name (area st)) s' = (Err e, s')) ∧
  (isEncrypted st = false →
   call_listener h changes (area_name (area st)) s'
     = (Ok tt, with_delivered (delivered s' ++ [(callback, change)]) s')).
Proof.
  unfold subscribe. intros [= <- _] Hchange. cbn [call_listener].
  split; [|split].
  - intros old new Hold Hnew. by apply (sub_matching _ _ _ _ change).
  - intros Hbad. by apply (sub_decryption_rejected _ _ _ _ change).
  - intros Hplain.
    rewrite (sub_matching _ _ _ _ change (oldValue change) (newValue change));
      [by destruct change|done|by rewrite Hplain..].
Qed.

(** X16.  The cleanup of the hook does not remove the hook's listener.
    The effect of [use] subscribes [onChanged], and [subscribe] registers
    a closure of its own around it; the cleanup hands [onChanged] itself
    to [unsubscribe].  So the closure registered by the effect is still
    registered after the cleanup; and when [onChanged] was not itself
    among the listeners, the cleanup resolves and changes nothing at all,
    leaving one listener more than before the effect. *)
Theorem use_cleanup_keeps_the_listener st key onChanged s :
  let mounted := (use_effect st key onChanged s).2 in
  let h := SubFn (next_fn s) st key onChanged in
  h ∈ listeners (use_cleanup onChanged mounted).2 ∧
  ((∀ f, f ∈ listeners s → same_fn f (UserFn onChanged) = false) →
   listeners mounted = listeners s ++ [h] ∧
   use_cleanup onChanged mounted = (Ok tt, mounted)).
Proof.
  cbn zeta.
  pose proof (methods_step subscriptions_kept st subscriptions_kept_refl
                subscriptions_kept_trans (λ c _, host_subscriptions c)
                (λ s, conj eq_refl (conj eq_refl eq_refl))) as (_ & Hg & _ & _).
  destruct (Hg key s) as (Hl & _ & Hn).
  assert (listeners (use_effect st key onChanged s).2
            = listeners s ++ [SubFn (next_fn s) st key onChanged]) as Hmounted.
  { unfold use_effect. cbn [snd subscribe listeners with_listeners].
    by rewrite Hl, Hn. }
  split.
  - unfold use_cleanup. cbn [unsubscribe snd listeners with_listeners].
    apply elem_of_unsubscribed. split; [|done].
    rewrite Hmounted. apply elem_of_app. right. by left.
  - intros Hforeign. split; [done|].
    unfold use_cleanup. apply unsubscribe_unregistered.
    intros f. rewrite Hmounted.
    intros [Hf|Hf%list_elem_of_singleton]%elem_of_app; [by apply Hforeign|by subst f].
Qed.

End Delivery.

(* ===================================================================== *)
(** * The further theorems at concrete inputs *)
(* ===================================================================== *)

Section FurtherInstances.
#[local] Existing Instance toy_security.

(** Two stores that meet on one actual key: what store [a] keeps under
    [b:c] is what store [a:b] keeps under [c]. *)
Example colliding_stores : actualKey "a" "b:c" = actualKey "a:b" "c".
Proof. reflexivity. Qed.

(** After the effect of the hook and its cleanup, a change of
    [prefs:theme] still reaches [onChanged]. *)
Example hook_still_listens :
  let change := {| oldValue := undefined; newValue := defined (JStr "dark") |} in
  let changes : gmap string DataChange := {[ "prefs:theme" := change ]} in
  let mounted := (use_effect prefs "theme" 7 (fresh_page None)).2 in
  delivered (dispatch changes "local" (use_cleanup 7 mounted).2) = [(7, change)].
Proof. by vm_compute. Qed.

Lemma actualKey_separates_colon_free_stores_witness :
  has_colon "prefs" = false ∧
  actualKey "prefs" "theme" = actualKey "prefs" "theme" ∧
  "prefs" = "prefs" ∧ "theme" = "theme".
Proof.
  split; [reflexivity|]. split; [reflexivity|].
  exact (actualKey_separates_colon_free_stores "prefs" "prefs" "theme" "theme"
           eq_refl eq_refl eq_refl).
Defined.

Lemma plain_set_then_get_witness :
  isEncrypted prefs = false ∧
  reliable (fresh_page None) ∧
  (set prefs (AKey "theme") (defined (JStr "dark")) (fresh_page None)).1 = Ok tt ∧
  (get prefs "theme"
     (set prefs (AKey "theme") (defined (JStr "dark")) (fresh_page None)).2).1
    = Ok (defined (JStr "dark")).
Proof.
  assert (reliable (fresh_page None)) as Hhost by (intros n; reflexivity).
  split; [reflexivity|]. split; [exact Hhost|].
  exact (plain_set_then_get prefs "theme" (defined (JStr "dark")) _
           eq_refl Hhost eq_refl).
Defined.

Lemma set_leaves_other_keys_witness :
  reliable (fresh_page (Some "secret")) ∧
  "theme" ≠ "volume" ∧
  (get vault "volume"
     (set vault (AKey "theme") (defined (JStr "dark")) (fresh_page (Some "secret"))).2).1
    = (get vault "volume" (fresh_page (Some "secret"))).1.
Proof.
  assert (reliable (fresh_page (Some "secret"))) as Hhost by (intros n; reflexivity).
  assert ("theme" ≠ "volume") as Hne by discriminate.
  split; [exact Hhost|]. split; [exact Hne|].
  apply (set_leaves_other_keys vault "theme" "volume" (defined (JStr "dark")) _ Hhost);
    [|exact Hne].
  intros _ [|[]]; reflexivity.
Defined.

Lemma bulk_set_then_get_witness :
  isEncrypted prefs = false ∧
  reliable (fresh_page None) ∧
  (get prefs "volume"
     (set prefs (AObject [("theme", defined (JStr "dark")); ("volume", undefined)])
        undefined (fresh_page None)).2).1
    = Ok undefined.
Proof.
  assert (reliable (fresh_page None)) as Hhost by (intros n; reflexivity).
  split; [reflexivity|]. split; [exact Hhost|].
  apply (bulk_set_then_get prefs
           [("theme", defined (JStr "dark")); ("volume", undefined)]
           "volume" undefined _ eq_refl Hhost).
  - apply NoDup_cons. split; [by intros ?%list_elem_of_singleton|].
    apply NoDup_singleton.
  - right. by left.
Defined.

Lemma plain_initialize_stores_no_default_witness :
  isEncrypted prefs = false ∧
  storage (initialize prefs (fresh_page None)).2 = storage (fresh_page None) ∧
  (get prefs "volume" (fresh_page None)).1 = Ok undefined.
Proof.
  assert (∀ k, k ∈ actualKeys prefs → entry (defaults prefs) k = undefined) as Hnone.
  { intros k [->|Hk]%elem_of_cons; [reflexivity|].
    apply list_elem_of_singleton in Hk as ->. reflexivity. }
  destruct (plain_initialize_stores_no_default prefs (fresh_page None) eq_refl Hnone)
    as [Hstorage Hget].
  split; [reflexivity|]. split; [exact Hstorage|].
  apply (Hget (λ n, eq_refl) "volume").
Defined.

Lemma all_decrypts_each_key_witness :
  let s := (set vault (AKey "theme") (defined (JStr "dark"))
              (fresh_page (Some "secret"))).2 in
  well_keyed vault ∧
  isEncrypted vault = true ∧
  "theme" ∈ keys vault ∧
  ∃ v, decrypt (held local "prefs:theme" (all vault s).2) = Ok v ∧
       match (all vault s).1 with
       | Ok m => m !! "theme" = Some v
       | Err _ => False
       end.
Proof.
  cbn zeta.
  assert ("theme" ∈ keys vault) as Hkey by (by left).
  split; [reflexivity|]. split; [reflexivity|]. split; [exact Hkey|].
  pose (s := (set vault (AKey "theme") (defined (JStr "dark"))
                (fresh_page (Some "secret"))).2).
  assert (all vault s
            = (Ok {[ "prefs:theme" := defined (JStr "s:dark");
                     "prefs:volume" := defined (JStr "?");
                     "theme" := defined (JStr "dark");
                     "volume" := undefined ]},
               (all vault s).2)) as Hall by reflexivity.
  destruct (all_decrypts_each_key vault s _ _ "theme" eq_refl eq_refl Hall Hkey)
    as (v & Hv & Hm).
  exists v. split; [exact Hv|exact Hm].
Defined.

Lemma get_agrees_with_all_witness :
  well_keyed prefs ∧
  "theme" ∈ keys prefs ∧
  (get prefs "theme"
     (all prefs (set prefs (AKey "theme") (defined (JStr "dark")) (fresh_page None)).2).2).1
    = Ok (defined (JStr "dark")).
Proof.
  assert ("theme" ∈ keys prefs) as Hkey by (by left).
  split; [reflexivity|]. split; [exact Hkey|].
  pose (s := (set prefs (AKey "theme") (defined (JStr "dark")) (fresh_page None)).2).
  assert (all prefs s
            = (Ok {[ "prefs:theme" := defined (JStr "dark") ]}, (all prefs s).2))
    as Hall by reflexivity.
  exact (get_agrees_with_all prefs s _ _ "theme" eq_refl Hall Hkey eq_refl).
Defined.

Lemma listener_answers_matching_event_witness :
  let change := {| oldValue := undefined; newValue := defined (JStr "s:dark") |} in
  let changes : gmap string DataChange := {[ "prefs:theme" := change ]} in
  subscribe vault "theme" 7 (fresh_page (Some "secret"))
    = (Ok (SubFn 0 vault "theme" 7),
       with_listeners [SubFn 0 vault "theme" 7] 1 (fresh_page (Some "secret"))) ∧
  changes !! actualKey (storeId vault) "theme" = Some change ∧
  call_listener (SubFn 0 vault "theme" 7) changes "local" (fresh_page (Some "secret"))
    = (Ok tt,
       with_delivered
         [(7, {| oldValue := undefined; newValue := defined (JStr "dark") |})]
         (fresh_page (Some "secret"))).
Proof.
  cbn zeta.
  pose (change := {| oldValue := undefined; newValue := defined (JStr "s:dark") |}).
  assert (subscribe vault "theme" 7 (fresh_page (Some "secret"))
            = (Ok (SubFn 0 vault "theme" 7),
               with_listeners [SubFn 0 vault "theme" 7] 1 (fresh_page (Some "secret"))))
    as Hsub by reflexivity.
  assert (({[ "prefs:theme" := change ]} : gmap string DataChange)
            !! actualKey (storeId vault) "theme" = Some change)
    as Hchange by reflexivity.
  split; [exact Hsub|]. split; [exact Hchange|].
  destruct (listener_answers_matching_event vault "theme" 7 _ _ _ _ change
              (fresh_page (Some "secret")) Hsub Hchange) as (Hdelivers & _ & _).
  exact (Hdelivers undefined (defined (JStr "dark")) eq_refl eq_refl).
Defined.

Lemma bulk_set_removes_then_writes_witness :
  reliable (fresh_page None) ∧
  (set prefs (AObject [("theme", defined (JStr "dark")); ("volume", undefined)])
     undefined (fresh_page None)).1 = Ok tt.
Proof.
  assert (reliable (fresh_page None)) as Hhost by (intros n; reflexivity).
  split; [exact Hhost|].
  pose proof (bulk_set_removes_then_writes prefs
                [("theme", defined (JStr "dark")); ("volume", undefined)]
                (fresh_page None)) as Hbulk.
  cbn zeta in Hbulk.
  destruct Hbulk as (removal & write & _ & _ & _ & _ & Hresolves).
  apply Hresolves; [exact Hhost|discriminate].
Defined.

(** An undeclared key reaches the host: [get("other")] on the scenario's
    store reads [prefs:other], which is no declared key behind the
    prefix. *)
Example undeclared_key_read :
  trace (get prefs "other" (with_hasInitialized true (fresh_page None))).2
    = [HGet local ["prefs:other"]] ∧
  trace (set prefs (AObject [("extra", defined (JNum 1))]) undefined
           (with_hasInitialized true (fresh_page None))).2
    = [HSet local {[ "prefs:extra" := defined (JNum 1) ]}].
Proof. by vm_compute. Qed.

(** C7 (as stated, refuted).  The store of the scenario, as
    [createStore] returns it, declares [theme] and [volume]; [other] is
    not declared, and the calls of [get("other")] do not stay inside the
    store: it reads the actual key [prefs:other]. *)
Lemma undeclared_key_escapes :
  createStore "prefs" prefs_defaults local None (fresh_page None)
    = (Ok prefs, with_hasInitialized false (fresh_page None)) ∧
  ¬ confined prefs (get prefs "other").
Proof.
  split; [reflexivity|]. intros Hconfined.
  destruct (Hconfined (with_hasInitialized true (fresh_page None)))
    as (new & Htrace & Hnew).
  change (trace (get prefs "other" (with_hasInitialized true (fresh_page None))).2)
    with [HGet local ["prefs:other"]] in Htrace.
  cbn [trace with_hasInitialized fresh_page app] in Htrace. subst new.
  apply Forall_cons in Hnew as [[_ Hkeys] _].
  destruct (Hkeys "prefs:other") as (logicalKey & Hdeclared & Hform);
    [by left|].
  apply elem_of_cons in Hdeclared as [->|Hdeclared]; [discriminate|].
  apply list_elem_of_singleton in Hdeclared as ->. discriminate.
Qed.

End FurtherInstances.
